(** * Ultrasonic positioning: the TDOA pipeline of [position.c]

    A shallow embedding of [PSoC_Creator/Carlab.cydsn/position.c]: the
    interrupt handler [positioningHandler] that turns four captured timer
    values into a position fix, the accessor [position_data_available], and
    the published variables they share.

    Machine data is modelled as the target has it (PSoC 5LP, ARM Cortex-M3,
    GCC): [uint32] and [int32] are 32-bit integers, written as [Z] with the
    wrap-around spelled out; [float] is IEEE 754 binary32 and [double] is
    binary64, both with round-to-nearest-even, taken from the Standard
    Library's executable specification [SpecFloat].  C's usual arithmetic
    conversions are written out at every operator: an operation with a
    [double] operand is done in binary64 and rounded to binary32 only when
    it is stored in a [float] variable.

    The handler is modelled with the build options of the source:
    [SHOW_GARBAGE] is not defined and [PRINT_CONVERGENCE] is, so every
    update of the solver formats three texts with [sprintf] into the local
    [char buf[32]] and hands them to the LCD.  The LCD is write-only for
    the handler; what it shows is kept as a list of lines.  The texts are
    modelled character by character, because [sprintf] does not know the
    size of [buf]: a text of 32 characters or more is written past the end
    of the array, and from there on the C program has no defined
    behaviour.  The model stops at that point with an outcome of its own.
    The peripherals started by [position_init] and the clearing of the
    interrupt at the end of the handler do not touch the published
    variables and are left out. *)

From Stdlib Require Import ZArith Bool List Lia Sorted.
From Stdlib Require Import Floats.SpecFloat.
From Stdlib Require String DecimalString.
Import ListNotations.

Local Open Scope Z_scope.

(** ** Machine integers *)

Module Int.

Definition modulus : Z := 2 ^ 32.
Definition half_modulus : Z := 2 ^ 31.

(** [limits.h]: [unsigned long] is 32 bits wide on the target. *)
Definition ULONG_MAX : Z := modulus - 1.
Definition INT32_MIN : Z := - half_modulus.
Definition INT32_MAX : Z := half_modulus - 1.

Definition is_uint32 (v : Z) : Prop := 0 <= v <= ULONG_MAX.
Definition is_int32 (v : Z) : Prop := INT32_MIN <= v <= INT32_MAX.

(** Reduction of a mathematical result to [uint32]. *)
Definition wrap_u32 (v : Z) : Z := v mod modulus.

(** The cast [(int32)u] of an unsigned value and the reduction of a signed
    result: two's complement. *)
Definition wrap_s32 (v : Z) : Z :=
  let u := v mod modulus in
  if u <? half_modulus then u else u - modulus.

Definition sub_u32 (a b : Z) : Z := wrap_u32 (a - b).
Definition sub_s32 (a b : Z) : Z := wrap_s32 (a - b).
Definition mul_s32 (a b : Z) : Z := wrap_s32 (a * b).
Definition cast_s32 (u : Z) : Z := wrap_s32 u.

End Int.

(** ** Floating point: binary32 for [float], binary64 for [double] *)

Module F32.
Definition prec : Z := 24.
Definition emax : Z := 128.
Definition t := spec_float.

Definition add : t -> t -> t := SFadd prec emax.
Definition sub : t -> t -> t := SFsub prec emax.
Definition mul : t -> t -> t := SFmul prec emax.
Definition div : t -> t -> t := SFdiv prec emax.
Definition opp : t -> t := SFopp.
Definition of_Z (n : Z) : t := binary_normalize prec emax n 0 false.
Definition zero : t := S754_zero false.
End F32.

Module F64.
Definition prec : Z := 53.
Definition emax : Z := 1024.
Definition t := spec_float.

Definition add : t -> t -> t := SFadd prec emax.
Definition sub : t -> t -> t := SFsub prec emax.
Definition mul : t -> t -> t := SFmul prec emax.
Definition div : t -> t -> t := SFdiv prec emax.
Definition sqrt : t -> t := SFsqrt prec emax.
Definition opp : t -> t := SFopp.
Definition of_Z (n : Z) : t := binary_normalize prec emax n 0 false.
Definition zero : t := S754_zero false.

(** Comparisons; every one of them is false when an operand is a NaN. *)
Definition ltb : t -> t -> bool := SFltb.
Definition leb : t -> t -> bool := SFleb.
Definition eqb : t -> t -> bool := SFeqb.
Definition gtb (a b : t) : bool := SFltb b a.
Definition geb (a b : t) : bool := SFleb b a.

(** A decimal literal [n/d] of the source: the binary64 nearest to it. *)
Definition literal (n d : Z) : t := div (of_Z n) (of_Z d).
End F64.

(** The conversions between the two formats.  [float] to [double] is exact
    and re-normalises the mantissa to 53 bits; [double] to [float] rounds. *)
Definition to_double (f : F32.t) : F64.t :=
  match f with
  | S754_finite s m e =>
      binary_normalize F64.prec F64.emax (cond_Zopp s (Zpos m)) e s
  | _ => f
  end.

Definition to_float (d : F64.t) : F32.t :=
  match d with
  | S754_finite s m e =>
      binary_normalize F32.prec F32.emax (cond_Zopp s (Zpos m)) e s
  | _ => d
  end.

(** ** Constants of [position.c] *)

Definition X : F64.t := F64.literal 235 10.        (* 23.5 ft *)
Definition Y : F64.t := F64.literal 3375 100.      (* 33.75 ft *)
Definition Z_ : F64.t := F64.literal 7583 1000.    (* 7.583 ft; [Z] in the source *)
Definition CLOCK_FREQ : Z := 1000000.              (* Hz *)
Definition WAVE_SPEED : F64.t := F64.literal 1135 1. (* ft/s *)
Definition TX_SPACING : Z := 100.                  (* ms *)
Definition EPSILON : F64.t := F64.literal 5 10.
Definition DEL_FACTOR : F64.t := F64.literal 1 10.
Definition MAX_ERROR : F64.t := F64.literal 5 10.
Definition ERROR_THRESHOLD : F64.t := F64.literal 1 100.
Definition MAX_ITERATIONS : Z := 100.

(** ** Published state: the file's static variables *)

Record published : Type := mkPublished {
  x : F32.t;         (* the current position *)
  y : F32.t;
  fxy : F32.t;       (* the current error *)
  new_data : Z       (* uint8 used as a boolean *)
}.

Definition initial : published :=
  {| x := F32.zero; y := F32.zero; fxy := F32.zero; new_data := 0 |}.

(** [position_data_available]: the body runs inside a critical section, so
    it is one atomic step on the published state.  Returns [ret] and the
    state after the call. *)
Definition position_data_available (st : published) : Z * published :=
  let ret := new_data st in
  (ret, {| x := x st; y := y st; fxy := fxy st; new_data := 0 |}).

Definition position_x (st : published) : F32.t := x st.
Definition position_y (st : published) : F32.t := y st.
Definition error (st : published) : F32.t := fxy st.

(** The file's own [fabsf]: [num >= 0.0] is evaluated in binary64. *)
Definition fabsf (num : F32.t) : F32.t :=
  if F64.geb (to_double num) F64.zero then num else F32.opp num.

(** ** [positioningHandler] *)

(** The timer's capture FIFO as the handler sees it: [cap i] is the value
    the [i]-th call of [UltraTimer_ReadCapture] of this invocation returns
    (a [uint32]). *)
Definition captures : Type := nat -> Z.

(** The test of line 128, [time[i] == 0u || time[i] < ULONG_MAX - CLOCK_FREQ].
    [CLOCK_FREQ] is converted to [unsigned long] for the subtraction. *)
Definition STALE_LIMIT : Z := Int.sub_u32 Int.ULONG_MAX CLOCK_FREQ.

Definition garbage_time (t : Z) : bool := (t =? 0) || (t <? STALE_LIMIT).

(** The first loop, [for (i = 0; i < 4; i++)], from index [i] with [n]
    rounds to go: [inl i] is the [return] at index [i], [inr time] the filled
    part of the array.  [SHOW_GARBAGE] is not defined, so the [return]
    writes nothing. *)
Fixpoint acquire (cap : captures) (i n : nat) : nat + list Z :=
  match n with
  | O => inr []
  | S n' =>
      let t := cap i in
      if garbage_time t then inl i
      else match acquire cap (S i) n' with
           | inl j => inl j
           | inr time => inr (t :: time)
           end
  end.

(** Lines 140-141: [(int32)(time[0] - time[i]) - i*(CLOCK_FREQ/1000*TX_SPACING)],
    the subtraction of the timestamps in [uint32], the rest in 32-bit [int]. *)
Definition TICKS_PER_SPACING : Z := Int.mul_s32 (CLOCK_FREQ / 1000) TX_SPACING.

Definition tick_delta (time0 timei : Z) (i : Z) : Z :=
  Int.sub_s32 (Int.cast_s32 (Int.sub_u32 time0 timei))
              (Int.mul_s32 i TICKS_PER_SPACING).

(** Lines 140-142: the delta converted to [float], multiplied in [double]
    by [WAVE_SPEED/CLOCK_FREQ] and stored in the [float] [diff[i]]. *)
Definition FEET_PER_TICK : F64.t := F64.div WAVE_SPEED (F64.of_Z CLOCK_FREQ).

Definition distance_difference (time0 timei : Z) (i : Z) : F32.t :=
  to_float (F64.mul (to_double (F32.of_Z (tick_delta time0 timei i)))
                    FEET_PER_TICK).

(** Line 146: [fabsf(diff[i]) > X + Y]. *)
Definition implausible (d : F32.t) : bool :=
  F64.gtb (to_double (fabsf d)) (F64.add X Y).

(** The second loop, [for (i = 1; i < 4; i++)], from index [i] with [n]
    rounds to go: [inl i] is the [return] at index [i], [inr diff] the
    entries [diff[i]], [diff[i+1]], ... *)
Fixpoint differences (time : list Z) (i n : nat) : nat + list F32.t :=
  match n with
  | O => inr []
  | S n' =>
      let d := distance_difference (nth 0 time 0) (nth i time 0) (Z.of_nat i) in
      if implausible d then inl i
      else match differences time (S i) n' with
           | inl j => inl j
           | inr diff => inr (d :: diff)
           end
  end.

(** The measured differences [diff[1]], [diff[2]], [diff[3]] the solver
    works on ([diff[0]] is never written or read). *)
Record measurement : Type := mkMeasurement {
  diff1 : F32.t;
  diff2 : F32.t;
  diff3 : F32.t
}.

Definition measurement_of (diff : list F32.t) : measurement :=
  {| diff1 := nth 0 diff F32.zero;
     diff2 := nth 1 diff F32.zero;
     diff3 := nth 2 diff F32.zero |}.

(** *** One evaluation of the metric and its gradient (lines 167-192) *)

Definition half (c : F64.t) : F64.t := F64.div c (F64.of_Z 2).

Definition sq (a : F64.t) : F64.t := F64.mul a a.

(** [sqrt(a*a + b*b + Z*Z)] stored in a [float]. *)
Definition corner_distance (a b : F64.t) : F32.t :=
  to_float (F64.sqrt (F64.add (F64.add (sq a) (sq b)) (sq Z_))).

Record evaluation : Type := mkEvaluation {
  e_fxy : F32.t;                          (* new_fxy *)
  e_dfx : F32.t;
  e_dfy : F32.t;
  e_gradient_magnitude_squared : F32.t
}.

Definition evaluate (m : measurement) (new_x new_y : F32.t) : evaluation :=
  let xp := F64.add (to_double new_x) (half X) in   (* new_x + X/2 *)
  let xm := F64.sub (to_double new_x) (half X) in   (* new_x - X/2 *)
  let yp := F64.add (to_double new_y) (half Y) in   (* new_y + Y/2 *)
  let ym := F64.sub (to_double new_y) (half Y) in   (* new_y - Y/2 *)
  let dist0 := corner_distance xp yp in
  let dist1 := corner_distance xm yp in
  let dist2 := corner_distance xm ym in
  let dist3 := corner_distance xp ym in
  let error1 := F32.sub (F32.sub dist1 dist0) (diff1 m) in
  let error2 := F32.sub (F32.sub dist2 dist0) (diff2 m) in
  let error3 := F32.sub (F32.sub dist3 dist0) (diff3 m) in
  let new_fxy := to_float F64.zero in
  let new_fxy := F32.add new_fxy (F32.mul error1 error1) in
  let new_fxy := F32.add new_fxy (F32.mul error2 error2) in
  let new_fxy := F32.add new_fxy (F32.mul error3 error3) in
  let twice e := to_double (F32.mul (F32.of_Z 2) e) in
  let over a d := F64.div a (to_double d) in
  let dfx := to_float (F64.mul (twice error2)
                         (F64.sub (over xm dist2) (over xp dist0))) in
  let dfx := to_float (F64.add (to_double dfx)
               (F64.mul (twice error3)
                  (F64.sub (over xp dist3) (over xp dist0)))) in
  let dfx := to_float (F64.add (to_double dfx)
               (F64.mul (twice error1)
                  (F64.sub (over xm dist1) (over xp dist0)))) in
  let dfy := to_float (F64.mul (twice error2)
                         (F64.sub (over ym dist2) (over yp dist0))) in
  let dfy := to_float (F64.add (to_double dfy)
               (F64.mul (twice error3)
                  (F64.sub (over ym dist3) (over yp dist0)))) in
  let dfy := to_float (F64.add (to_double dfy)
               (F64.mul (twice error1)
                  (F64.sub (over yp dist1) (over yp dist0)))) in
  {| e_fxy := new_fxy;
     e_dfx := dfx;
     e_dfy := dfy;
     e_gradient_magnitude_squared :=
       F32.add (F32.mul dfx dfx) (F32.mul dfy dfy) |}.

(** Line 193: [gradient_magnitude_squared == 0.0]. *)
Definition stationary (ev : evaluation) : bool :=
  F64.eqb (to_double (e_gradient_magnitude_squared ev)) F64.zero.

(** Lines 197-198: [c -= DEL_FACTOR * new_fxy * df / gradient_magnitude_squared]
    for a coordinate [c] with its partial derivative [df]. *)
Definition descend (ev : evaluation) (c df : F32.t) : F32.t :=
  to_float
    (F64.sub (to_double c)
       (F64.div (F64.mul (F64.mul DEL_FACTOR (to_double (e_fxy ev)))
                         (to_double df))
                (to_double (e_gradient_magnitude_squared ev)))).

(** *** The [do ... while] loop (lines 161-216) *)

(** The solver's variables when the loop is left. *)
Record hypothesis : Type := mkHypothesis {
  new_x : F32.t;
  new_y : F32.t;
  new_fxy : F32.t;
  iters : Z
}.

(** What one completed update shows on the LCD ([PRINT_CONVERGENCE]), and
    the divisor that update used. *)
Record progress : Type := mkProgress {
  p_dfx : F32.t;
  p_dfy : F32.t;
  p_iters : Z;
  p_x : F32.t;
  p_y : F32.t;
  p_fxy : F32.t;
  p_divisor : F32.t
}.

(** The texts of lines 203, 206 and 209.  [sprintf] with [%.1f] takes a
    [double] (a [float] argument is promoted) and writes its exact value
    rounded to one decimal, ties to even, with a minus sign when the sign
    bit is set; an infinity is written [inf] and a NaN [nan].  [%d] writes
    the [int] in decimal.  The text is followed by a terminating NUL.
    This is the conversion of the C standard, with floating-point
    formatting linked in, as newlib and glibc perform it; the standard
    leaves the spelling of infinities and NaNs to the library, and the
    short spelling is the one taken here. *)
Module Lcd.
Import String.

(** [char buf[32]], line 164. *)
Definition BUF_SIZE : nat := 32.

Definition decimal (n : Z) : string :=
  DecimalString.NilZero.string_of_int (Z.to_int n).

(** [%d]. *)
Definition format_d (n : Z) : string := decimal n.

(** [n / 2^k] rounded to the nearest integer, ties to even. *)
Definition round_half_even (n k : Z) : Z :=
  let q := Z.shiftr n k in
  let r := n - Z.shiftl q k in
  match 2 * r ?= Z.shiftl 1 k with
  | Lt => q
  | Gt => q + 1
  | Eq => if Z.even q then q else q + 1
  end.

(** The magnitude [m * 2^e] in tenths, rounded. *)
Definition tenths (m : positive) (e : Z) : Z :=
  if (0 <=? e)%Z then Z.shiftl (10 * Zpos m) e
  else round_half_even (10 * Zpos m) (- e).

Definition sign (s : bool) : string := if s then "-"%string else ""%string.

(** [%.1f]. *)
Definition format_f1 (v : F64.t) : string :=
  match v with
  | S754_nan => "nan"%string
  | S754_infinity s => (sign s ++ "inf")%string
  | S754_zero s => (sign s ++ "0.0")%string
  | S754_finite s m e =>
      let r := tenths m e in
      (sign s ++ decimal (r / 10) ++ "." ++ decimal (r mod 10))%string
  end.

(** The three texts one update formats, in the order of the source. *)
Definition texts (p : progress) : list string :=
  [ ("dX:" ++ format_f1 (to_double (p_dfx p)) ++ " dY:"
       ++ format_f1 (to_double (p_dfy p)) ++ " " ++ format_d (p_iters p)
       ++ "  ")%string;
    ("X:" ++ format_f1 (to_double (p_x p)) ++ " Y:"
       ++ format_f1 (to_double (p_y p)) ++ "   ")%string;
    (" " ++ format_f1 (to_double (p_fxy p)) ++ "     ")%string ].

(** The text and its NUL stay inside [buf]. *)
Definition fits (text : string) : bool :=
  (String.length text <? BUF_SIZE)%nat.

(** No [sprintf] of the update writes past the end of [buf]. *)
Definition shown_fits (p : progress) : bool := forallb fits (texts p).

End Lcd.

(** Line 216: [(fabsf(new_fxy) > ERROR_THRESHOLD) && (iters < MAX_ITERATIONS)]. *)
Definition keep_going (fxy_now : F32.t) (iters_now : Z) : bool :=
  F64.gtb (to_double (fabsf fxy_now)) ERROR_THRESHOLD
  && (iters_now <? MAX_ITERATIONS).

(** One round of the loop, entered with the variables [nx], [ny], [it]:
    the body and the test of the [while].  [Stop] is the loop left (by the
    [break], with nothing shown, or by the test), [Again] one more round,
    and [Smash] a round whose update was made and whose texts did not fit
    [buf]: a [sprintf] of lines 203-209 wrote past the end of the array. *)
Inductive control : Type :=
| Stop (h : hypothesis) (lcd : list progress)
| Again (nx ny : F32.t) (it : Z) (shown : progress)
| Smash (shown : progress).

Definition loop_body (m : measurement) (nx ny : F32.t) (it : Z) : control :=
  let ev := evaluate m nx ny in
  if stationary ev then
    Stop {| new_x := nx; new_y := ny; new_fxy := e_fxy ev; iters := it |}
         []                                                   (* break *)
  else
    let nx' := descend ev nx (e_dfx ev) in
    let ny' := descend ev ny (e_dfy ev) in
    let shown :=
      {| p_dfx := e_dfx ev; p_dfy := e_dfy ev; p_iters := it;
         p_x := nx'; p_y := ny'; p_fxy := e_fxy ev;
         p_divisor := e_gradient_magnitude_squared ev |} in
    if negb (Lcd.shown_fits shown) then Smash shown           (* sprintf *)
    else
      let it' := Int.wrap_s32 (it + 1) in                     (* iters++ *)
      if keep_going (e_fxy ev) it' then Again nx' ny' it' shown
      else
        Stop {| new_x := nx'; new_y := ny'; new_fxy := e_fxy ev;
                iters := it' |}
             [shown].

(** How a run of the loop ends: the loop is left with the solver's
    variables; or a round has written past [buf], after which nothing is
    known of the C program; or the model has used up its fuel.  Each
    carries the updates made, in the order they were shown; in [Overran]
    the last one is the update whose texts did not fit. *)
Inductive run : Type :=
| Finished (h : hypothesis) (lcd : list progress)
| Overran (lcd : list progress)
| OutOfFuel (lcd : list progress).

(** One more update in front of a run. *)
Definition after_update (shown : progress) (r : run) : run :=
  match r with
  | Finished h lcd => Finished h (shown :: lcd)
  | Overran lcd => Overran (shown :: lcd)
  | OutOfFuel lcd => OutOfFuel (shown :: lcd)
  end.

(** The loop.  [fuel] bounds the number of rounds the model may run. *)
Fixpoint solver_loop (fuel : nat) (m : measurement)
    (nx ny : F32.t) (it : Z) : run :=
  match fuel with
  | O => OutOfFuel []
  | S fuel' =>
      match loop_body m nx ny it with
      | Stop h lcd => Finished h lcd
      | Again nx' ny' it' shown =>
          after_update shown (solver_loop fuel' m nx' ny' it')
      | Smash shown => Overran [shown]
      end
  end.

(** The updates a run has made. *)
Definition updates_of (r : run) : list progress :=
  match r with
  | Finished _ lcd => lcd
  | Overran lcd => lcd
  | OutOfFuel lcd => lcd
  end.

(** Lines 218-223: the result is published when [fabsf(new_fxy) < MAX_ERROR]. *)
Definition acceptable (h : hypothesis) : bool :=
  F64.ltb (to_double (fabsf (new_fxy h))) MAX_ERROR.

Definition publish (st : published) (h : hypothesis) : published :=
  if acceptable h then
    {| x := new_x h; y := new_y h; fxy := new_fxy h; new_data := 1 |}
  else st.

(** Lines 157-216: the solver, seeded with the published position. *)
Definition solve (fuel : nat) (st : published) (m : measurement) : run :=
  solver_loop fuel m (x st) (y st) 0.

(** What an invocation of the handler comes to: it returns, leaving a
    published state behind; or its loop has written past [buf]; or the
    model ran out of fuel in the loop. *)
Inductive outcome : Type :=
| Returned (st : published)
| BufferOverrun
| NoFuel.

(** The whole handler.  It reads the captures. *)
Definition positioningHandler (fuel : nat) (cap : captures) (st : published)
  : outcome :=
  match acquire cap 0 4 with
  | inl _ => Returned st                                      (* return *)
  | inr time =>
      match differences time 1 3 with
      | inl _ => Returned st                                  (* return *)
      | inr diff =>
          match solve fuel st (measurement_of diff) with
          | Finished h _ => Returned (publish st h)
          | Overran _ => BufferOverrun
          | OutOfFuel _ => NoFuel
          end
      end
  end.

(** The fuel that always suffices: one round per allowed iteration. *)
Definition FUEL : nat := Z.to_nat MAX_ITERATIONS.

(** ** What the specification says, in its own words *)

(** Spec reading of "fails only near counter wraparound": the timestamp lies
    within the margin of one second's worth of ticks of either end of the
    counter's range. *)
Definition near_wraparound (t : Z) : Prop :=
  t <= CLOCK_FREQ \/ Int.ULONG_MAX - CLOCK_FREQ <= t.

(** Spec reading of the TDOA difference: the signed tick delta
    [time0 - timei] as a mathematical integer, minus [i] times the
    inter-pulse spacing in ticks, scaled by [WAVE_SPEED / CLOCK_FREQ]. *)
Definition exact_tick_delta (time0 timei i : Z) : Z :=
  (time0 - timei) - i * (CLOCK_FREQ / 1000 * TX_SPACING).

Definition spec_distance_difference (time0 timei i : Z) : F32.t :=
  to_float (F64.mul (to_double (F32.of_Z (exact_tick_delta time0 timei i)))
                    (F64.div WAVE_SPEED (F64.of_Z CLOCK_FREQ))).

(** A capture that passes the test of line 128. *)
Definition fresh_time (t : Z) : Prop :=
  Int.is_uint32 t /\ garbage_time t = false.

(** Spec reading of the cost.  The receiver is at [(px, py)], the four
    emitters at the corners of the rectangle, [Z] above it.  The distance
    to a corner that is [dx] and [dy] away along the sides: *)
Definition spec_distance (dx dy : F64.t) : F32.t :=
  to_float (F64.sqrt (F64.add (F64.add (F64.mul dx dx) (F64.mul dy dy))
                              (F64.mul Z_ Z_))).

(** [dist_k], for emitter [k] at [(-X/2, -Y/2)], [(X/2, -Y/2)],
    [(X/2, Y/2)] and [(-X/2, Y/2)]. *)
Definition spec_corner (k : nat) (px py : F32.t) : F32.t :=
  let to_west := F64.add (to_double px) (F64.div X (F64.of_Z 2)) in
  let to_east := F64.sub (to_double px) (F64.div X (F64.of_Z 2)) in
  let to_south := F64.add (to_double py) (F64.div Y (F64.of_Z 2)) in
  let to_north := F64.sub (to_double py) (F64.div Y (F64.of_Z 2)) in
  match k with
  | 0%nat => spec_distance to_west to_south
  | 1%nat => spec_distance to_east to_south
  | 2%nat => spec_distance to_east to_north
  | _ => spec_distance to_west to_north
  end.

Definition spec_measured (m : measurement) (i : nat) : F32.t :=
  match i with
  | 1%nat => diff1 m
  | 2%nat => diff2 m
  | _ => diff3 m
  end.

(** The residual [r_i = (dist_i - dist_0) - measured_difference_i]. *)
Definition spec_residual (m : measurement) (px py : F32.t) (i : nat) : F32.t :=
  F32.sub (F32.sub (spec_corner i px py) (spec_corner 0 px py))
          (spec_measured m i).

(** The cost [F(x,y)], the sum of the [r_i * r_i] for [i = 1..3]. *)
Definition spec_metric (m : measurement) (px py : F32.t) : F32.t :=
  fold_left
    (fun sum i =>
       F32.add sum (F32.mul (spec_residual m px py i) (spec_residual m px py i)))
    [1; 2; 3]%nat F32.zero.

(** Spec reading of the update of a coordinate [c]: [c] minus the damping
    factor times the cost times the partial derivative [df], divided by
    the squared gradient magnitude [g]. *)
Definition spec_step (c cost df g : F32.t) : F32.t :=
  to_float
    (F64.sub (to_double c)
       (F64.div (F64.mul (F64.mul DEL_FACTOR (to_double cost)) (to_double df))
                (to_double g))).


(** ** Notions used to state the properties *)

(** [f] is a number (not a NaN) whose sign bit is [s]. *)
Definition signed_as (s : bool) (f : spec_float) : Prop :=
  match f with
  | S754_zero s' | S754_infinity s' | S754_finite s' _ _ => s' = s
  | S754_nan => False
  end.

(** [f] is a NaN or carries no minus sign: what a sum of squares is. *)
Definition unsigned (f : spec_float) : Prop :=
  match f with
  | S754_nan => True
  | _ => signed_as false f
  end.

(** The exit conditions in the specification's words. *)
Definition converged (f : F32.t) : bool :=
  F64.ltb (to_double f) ERROR_THRESHOLD.

Definition cap_reached (it : Z) : bool := MAX_ITERATIONS <=? it.

(** The LCD line a round that starts at [(nx, ny)] with [iters = it]
    shows after its update. *)
Definition line_of (m : measurement) (nx ny : F32.t) (it : Z) : progress :=
  let ev := evaluate m nx ny in
  {| p_dfx := e_dfx ev; p_dfy := e_dfy ev; p_iters := it;
     p_x := descend ev nx (e_dfx ev); p_y := descend ev ny (e_dfy ev);
     p_fxy := e_fxy ev;
     p_divisor := e_gradient_magnitude_squared ev |}.

(** [lcd] is the sequence of updates of a run that enters the loop at
    [(nx, ny)] with [iters = it]: every line comes from a round whose
    gradient was not zero, is the update of the position the round
    started at, and every line but the last comes from a round whose
    texts fitted [buf] and after which the test of the [while] held. *)
Fixpoint run_of (m : measurement) (nx ny : F32.t) (it : Z)
    (lcd : list progress) : Prop :=
  match lcd with
  | [] => True
  | p :: rest =>
      stationary (evaluate m nx ny) = false /\
      p = line_of m nx ny it /\
      (rest <> [] ->
       Lcd.shown_fits p = true /\ keep_going (p_fxy p) (it + 1) = true) /\
      run_of m (p_x p) (p_y p) (it + 1) rest
  end.

(** Where a run that showed [lcd] stands. *)
Definition position_after (nx ny : F32.t) (lcd : list progress)
  : F32.t * F32.t :=
  match rev lcd with
  | [] => (nx, ny)
  | p :: _ => (p_x p, p_y p)
  end.

(** The difference the handler computes for index [i] from the captures of
    one invocation, and the measurement the solver is given. *)
Definition diff_of (cap : captures) (i : nat) : F32.t :=
  distance_difference (cap 0%nat) (cap i) (Z.of_nat i).

Definition cycle_measurement (cap : captures) : measurement :=
  {| diff1 := diff_of cap 1; diff2 := diff_of cap 2; diff3 := diff_of cap 3 |}.

(** The cycle passes the validity check of line 128 and the plausibility
    check of line 146. *)
Definition valid (cap : captures) : bool :=
  negb (existsb (fun i => garbage_time (cap i)) [0; 1; 2; 3]%nat).

Definition plausible (cap : captures) : bool :=
  negb (existsb (fun i => implausible (diff_of cap i)) [1; 2; 3]%nat).

Definition passes (cap : captures) : bool := valid cap && plausible cap.

(** Captures given as the four values of one invocation. *)
Definition captured (t0 t1 t2 t3 : Z) : captures :=
  fun i => nth i [t0; t1; t2; t3] 0.

(** A rejected cycle, by the check it fails: a capture equal to the
    sentinel zero, a capture that fails the staleness comparison, a
    difference whose magnitude exceeds the plausibility bound, or a final
    cost that fails the acceptance check. *)
Inductive rejected (fuel : nat) (cap : captures) (st : published) : Prop :=
| reject_zero (i : nat) :
    (i < 4)%nat -> cap i = 0 -> rejected fuel cap st
| reject_stale (i : nat) :
    (i < 4)%nat -> cap i < STALE_LIMIT -> rejected fuel cap st
| reject_implausible (i : nat) :
    (1 <= i < 4)%nat -> implausible (diff_of cap i) = true ->
    rejected fuel cap st
| reject_cost (h : hypothesis) (lcd : list progress) :
    solve fuel st (cycle_measurement cap) = Finished h lcd ->
    acceptable h = false -> rejected fuel cap st.

(** The test of line 193 on a divisor. *)
Definition is_zero (g : F32.t) : bool := F64.eqb (to_double g) F64.zero.

(** [p] is the update the specification describes for a round that starts
    at [(cx, cy)]: the cost is the metric there, computed from the
    measurement; the divisor is the squared magnitude of the gradient and
    is not zero; and each coordinate has moved by the step along its own
    partial derivative. *)
Definition spec_update (m : measurement) (cx cy : F32.t) (p : progress)
  : Prop :=
  p_fxy p = spec_metric m cx cy /\
  p_dfx p = e_dfx (evaluate m cx cy) /\
  p_dfy p = e_dfy (evaluate m cx cy) /\
  p_divisor p = F32.add (F32.mul (p_dfx p) (p_dfx p))
                        (F32.mul (p_dfy p) (p_dfy p)) /\
  is_zero (p_divisor p) = false /\
  p_x p = spec_step cx (p_fxy p) (p_dfx p) (p_divisor p) /\
  p_y p = spec_step cy (p_fxy p) (p_dfy p) (p_divisor p).

(** ** Example cycles *)

(** Four captures spaced exactly by the inter-pulse spacing: the receiver
    is at the centre of the rectangle. *)
Definition centred_cycle : captures :=
  captured 4294967295 4294867295 4294767295 4294667295.

(** A cycle a few ticks off the centre. *)
Definition near_centre_cycle : captures :=
  captured 4294967295 4294867285 4294767295 4294667305.

(** A cycle whose measurements no position explains well. *)
Definition ceiling_cycle : captures :=
  captured 4294967295 4294867783 4294765566 4294665851.

(** A published state away from the origin. *)
Definition elsewhere : published :=
  {| x := F32.of_Z 1; y := F32.of_Z (-2); fxy := F32.zero; new_data := 0 |}.

Definition no_hypothesis : hypothesis :=
  {| new_x := F32.zero; new_y := F32.zero; new_fxy := F32.zero; iters := 0 |}.

(** The runs of the solver on these cycles, evaluated. *)
Definition near_centre_run :=
  Eval vm_compute in
    match solve FUEL initial (cycle_measurement near_centre_cycle) with
    | Finished h lcd => (h, lcd)
    | _ => (no_hypothesis, [])
    end.

Definition elsewhere_run :=
  Eval vm_compute in
    match solve FUEL elsewhere (cycle_measurement near_centre_cycle) with
    | Finished h lcd => (h, lcd)
    | _ => (no_hypothesis, [])
    end.

Definition ceiling_run :=
  Eval vm_compute in
    match solve FUEL initial (cycle_measurement ceiling_cycle) with
    | Finished h lcd => (h, lcd)
    | _ => (no_hypothesis, [])
    end.

Definition ceiling_result := Eval vm_compute in fst ceiling_run.

(** A cycle that passes both checks and whose measurements lie further
    apart than any position of the receiver explains: each difference is
    within the plausibility bound, and the solver wanders off. *)
Definition overrun_cycle : captures :=
  captured 4294967295 4294877295 4294757295 4294677295.

(** The updates the solver makes on it after start-up. *)
Definition overrun_log :=
  Eval vm_compute in
    updates_of (solve FUEL initial (cycle_measurement overrun_cycle)).

(** The last of them. *)
Definition overrun_update :=
  Eval vm_compute in last overrun_log (line_of (cycle_measurement overrun_cycle)
                                         F32.zero F32.zero 0).

Module Example.
Import String.

(** What line 206 formats for [overrun_update]. *)
Definition overrun_text : string :=
  "X:-167174605897728.0 Y:-228384533643264.0   ".

End Example.

(** ** More notions: values, reachable states *)

(** A value a [float] variable can hold: a well-formed binary32. *)
Definition is_binary32 (f : F32.t) : Prop :=
  valid_binary F32.prec F32.emax f = true.

(** The published states the program can be in: the initial values of the
    static variables, then any interleaving of runs of the handler (on any
    captures) and calls of [position_data_available]. *)
Inductive reachable : published -> Prop :=
| reach_initial : reachable initial
| reach_cycle st fuel cap st' :
    reachable st -> positioningHandler fuel cap st = Returned st' ->
    reachable st'
| reach_read st :
    reachable st -> reachable (snd (position_data_available st)).

(** The state the cycle of [near_centre_cycle] leaves after start-up. *)
Definition near_centre_state :=
  Eval vm_compute in
    {| x := new_x (fst near_centre_run); y := new_y (fst near_centre_run);
       fxy := new_fxy (fst near_centre_run); new_data := 1 |}.

(** Captures that agree with [ceiling_cycle] on the four values read. *)
Definition padded_ceiling_cycle : captures :=
  fun i => if (i <? 4)%nat then ceiling_cycle i else 12345.

(** ** The transmitter simulator (the Arduino sketch) *)

(** The sketch that stands in for the receiver board: it drives one pin
    with a repeating series of four pings.  [unsigned long] is 32 bits on
    the Arduino and [unsigned] is 16 bits on its AVR boards.  [micros()]
    is the only input: the clock is the list of values its successive
    calls return, and a run that needs a reading when the list has ended
    gives [None].  The Arduino runtime calls [setup] once and then [loop]
    again and again. *)
Module Simulator.

Definition RX_PIN : Z := 11.
Definition NUM_TRANSMITTERS : Z := 4.
Definition DURATION : Z := 5000.                         (* us *)
Definition SPACINGS : list Z := [100000; 100000; 100000; 700000].

Definition UINT_MODULUS : Z := 2 ^ 16.

Inductive level : Type := HIGH | LOW.
Inductive mode : Type := OUTPUT.
Inductive output : Type :=
| pinMode (pin : Z) (m : mode)
| digitalWrite (pin : Z) (v : level).

Definition setup : list output := [pinMode RX_PIN OUTPUT].

(** [while (micros() - beginning < limit) ;] with the subtraction in
    [unsigned long]: the reading that ends the wait, and the readings not
    yet consumed. *)
Fixpoint busy_wait (clock : list Z) (beginning limit : Z)
  : option (Z * list Z) :=
  match clock with
  | [] => None
  | now :: rest =>
      if Int.sub_u32 now beginning <? limit
      then busy_wait rest beginning limit
      else Some (now, rest)
  end.

(** One call of [loop]: the static [i] after it, the readings left, the
    readings that started the ping, ended its HIGH phase and ended the
    call, and the writes to the pin. *)
Record pass : Type := mkPass {
  next_i : Z;
  clock_left : list Z;
  beginning : Z;
  lowered : Z;
  ended : Z;
  written : list output
}.

Definition loop (i : Z) (clock : list Z) : option pass :=
  match clock with
  | [] => None
  | beginning :: clock1 =>                 (* digitalWrite HIGH; micros() *)
      match busy_wait clock1 beginning DURATION with
      | None => None
      | Some (t_low, clock2) =>            (* digitalWrite LOW *)
          let spacing := nth (Z.to_nat i) SPACINGS 0 in
          let i' := ((i + 1) mod UINT_MODULUS) mod NUM_TRANSMITTERS in
          match busy_wait clock2 beginning spacing with
          | None => None
          | Some (t_end, clock3) =>
              Some {| next_i := i'; clock_left := clock3;
                      beginning := beginning; lowered := t_low;
                      ended := t_end;
                      written := [digitalWrite RX_PIN HIGH;
                                  digitalWrite RX_PIN LOW] |}
          end
      end
  end.

(** [n] calls of [loop] in a row, as the runtime makes them. *)
Fixpoint loops (n : nat) (i : Z) (clock : list Z)
  : option (Z * list Z * list pass) :=
  match n with
  | O => Some (i, clock, [])
  | S n' =>
      match loop i clock with
      | None => None
      | Some p =>
          match loops n' (next_i p) (clock_left p) with
          | None => None
          | Some (i', clock', ps) => Some (i', clock', p :: ps)
          end
      end
  end.

(** The wait read over true (unwrapped) times: the first time at which
    [limit] microseconds have elapsed since [began]. *)
Fixpoint first_elapsed (times : list Z) (began limit : Z)
  : option (Z * list Z) :=
  match times with
  | [] => None
  | t :: rest =>
      if t - began <? limit then first_elapsed rest began limit
      else Some (t, rest)
  end.

(** Example clocks. *)
Definition last_ping_clock : list Z :=
  [0; 10; 5000; 5001; 699999; 700000; 9].

Definition last_ping_pass : pass :=
  {| next_i := 0; clock_left := [9]; beginning := 0; lowered := 5000;
     ended := 700000;
     written := [digitalWrite RX_PIN HIGH; digitalWrite RX_PIN LOW] |}.

Definition rotation_clock : list Z :=
  [0; 5000; 100000; 100001; 105001; 200001; 200002; 205002; 300002;
   300003; 305003; 1000003; 1000004].

Definition rotation_result :=
  Eval vm_compute in
    match loops 4 0 rotation_clock with
    | Some r => r
    | None => (0, [], [])
    end.

(** True times that straddle the overflow of [micros()]. *)
Definition overflow_began : Z := 4294967000.
Definition overflow_polled : list Z :=
  [4294967100; 4294972000; 4295000000; 4295067000; 4295067005].

Definition overflow_pass :=
  Eval vm_compute in
    match loop 0 (map Int.wrap_u32 (overflow_began :: overflow_polled)) with
    | Some p => p
    | None => last_ping_pass
    end.

End Simulator.

(** * Properties *)

(** ** Machine integers *)

Section IntFacts.

Lemma modulus_eq : Int.modulus = 4294967296.
Proof. reflexivity. Qed.

Lemma half_modulus_eq : Int.half_modulus = 2147483648.
Proof. reflexivity. Qed.

Lemma wrap_s32_small v : Int.is_int32 v -> Int.wrap_s32 v = v.
Proof.
  unfold Int.is_int32, Int.INT32_MIN, Int.INT32_MAX, Int.wrap_s32.
  rewrite modulus_eq, half_modulus_eq. intros [Hlo Hhi].
  destruct (Z_lt_le_dec v 0) as [Hneg | Hpos].
  - replace (v mod 4294967296) with (v + 4294967296).
    + destruct (Z.ltb_spec (v + 4294967296) 2147483648); lia.
    + apply Z.mod_unique with (q := -1); lia.
  - rewrite Z.mod_small by lia.
    destruct (Z.ltb_spec v 2147483648); lia.
Qed.

(** Casting a wrapped unsigned difference to [int32] recovers the
    mathematical difference whenever that difference fits. *)
Lemma cast_sub_u32 a b :
  Int.is_int32 (a - b) -> Int.cast_s32 (Int.sub_u32 a b) = a - b.
Proof.
  intros H. unfold Int.cast_s32, Int.sub_u32, Int.wrap_u32, Int.wrap_s32.
  rewrite Z.mod_mod by (rewrite modulus_eq; lia).
  apply (wrap_s32_small (a - b) H).
Qed.

Lemma stale_limit_eq : STALE_LIMIT = 4293967295.
Proof. reflexivity. Qed.

Lemma ticks_per_spacing_eq : TICKS_PER_SPACING = 100000.
Proof. reflexivity. Qed.

Lemma garbage_time_spec t :
  garbage_time t = true <-> t = 0 \/ t < STALE_LIMIT.
Proof.
  unfold garbage_time. rewrite orb_true_iff, Z.eqb_eq, Z.ltb_lt. tauto.
Qed.

Lemma fresh_time_range t :
  fresh_time t <-> Int.ULONG_MAX - CLOCK_FREQ <= t <= Int.ULONG_MAX.
Proof.
  unfold fresh_time, Int.is_uint32.
  assert (Hg := garbage_time_spec t). rewrite stale_limit_eq in Hg.
  change Int.ULONG_MAX with 4294967295. change CLOCK_FREQ with 1000000.
  destruct (garbage_time t).
  - split; [intros [_ H]; discriminate | intros H].
    assert (t = 0 \/ t < 4293967295) by (apply Hg; reflexivity). lia.
  - split; [intros [H _] | intros H; split; [lia | reflexivity]].
    destruct (Z_lt_le_dec t 4293967295) as [Hlt | Hge]; [| lia].
    assert (false = true) by (apply Hg; right; exact Hlt). discriminate.
Qed.

End IntFacts.

(** ** Floating point: signs and comparisons *)

Section FloatFacts.


Lemma iter_pos_invariant {A} (P : A -> Prop) (f : A -> A) :
  (forall a, P a -> P (f a)) ->
  forall p a, P a -> P (iter_pos f p a).
Proof.
  intros Hf. induction p as [p IH | p IH |]; intros a Ha; simpl; auto.
Qed.

Lemma shr_1_nonneg mrs : 0 <= shr_m mrs -> 0 <= shr_m (shr_1 mrs).
Proof.
  destruct mrs as [m r s]. simpl.
  destruct m as [| [p | p |] | [p | p |]]; simpl; lia.
Qed.

Lemma shr_fexp_nonneg prec emax m e l :
  0 <= m -> 0 <= shr_m (fst (shr_fexp prec emax m e l)).
Proof.
  intros Hm. unfold shr_fexp, shr.
  assert (H0 : 0 <= shr_m (shr_record_of_loc m l))
    by (destruct l as [| []]; exact Hm).
  destruct (fexp prec emax (Zdigits2 m + e) - e) as [| p | p]; simpl; auto.
  apply (iter_pos_invariant (fun mrs => 0 <= shr_m mrs)); auto.
  apply shr_1_nonneg.
Qed.

Lemma round_nearest_even_nonneg m l :
  0 <= m -> 0 <= round_nearest_even m l.
Proof.
  intros Hm. destruct l as [| []]; simpl; try lia.
  destruct (Z.even m); lia.
Qed.

(** Rounding a non-negative mantissa keeps the sign it is given. *)
Lemma binary_round_aux_sign prec emax s m e l :
  0 <= m -> signed_as s (binary_round_aux prec emax s m e l).
Proof.
  intros Hm. unfold binary_round_aux.
  pose proof (shr_fexp_nonneg prec emax m e l Hm) as H1.
  destruct (shr_fexp prec emax m e l) as [mrs' e']. simpl in H1.
  pose proof (shr_fexp_nonneg prec emax
                (round_nearest_even (shr_m mrs') (loc_of_shr_record mrs'))
                e' loc_Exact (round_nearest_even_nonneg _ _ H1)) as H2.
  destruct (shr_fexp prec emax _ e' loc_Exact) as [mrs'' e'']. simpl in H2.
  destruct (shr_m mrs'') as [| p | p]; simpl; [reflexivity | | lia].
  destruct (e'' <=? emax - prec); reflexivity.
Qed.

Lemma binary_round_sign prec emax s m e :
  signed_as s (binary_round prec emax s m e).
Proof.
  unfold binary_round.
  destruct (shl_align m e _) as [mz ez].
  apply binary_round_aux_sign. lia.
Qed.

Lemma to_double_sign s f : signed_as s f -> signed_as s (to_double f).
Proof.
  destruct f as [s' | s' | | s' m e]; simpl; auto.
  intros Hs. subst s'. destruct s; simpl; apply binary_round_sign.
Qed.

Lemma mul_self_unsigned e : unsigned (F32.mul e e).
Proof.
  destruct e as [s | s | | s m ex]; simpl;
    try exact I; try (destruct s; reflexivity).
  pose proof (binary_round_aux_sign F32.prec F32.emax (xorb s s)
                (Zpos (m * m)) (ex + ex) loc_Exact) as H.
  rewrite xorb_nilpotent in *.
  unfold unsigned.
  destruct (binary_round_aux _ _ false _ _ _); auto; apply H; lia.
Qed.

Lemma add_unsigned a b : unsigned a -> unsigned b -> unsigned (F32.add a b).
Proof.
  destruct a as [sa | sa | | sa ma ea], b as [sb | sb | | sb mb eb];
    simpl; intros Ha Hb; subst; simpl; auto.
  destruct (shl_align ma ea _) as [ma' ea'], (shl_align mb eb _) as [mb' eb'].
  simpl.
  pose proof (binary_round_sign F32.prec F32.emax false (ma' + mb')
                (Z.min ea eb)) as H.
  unfold unsigned.
  destruct (binary_round _ _ false _ _); auto.
Qed.

(** The file's [fabsf] returns an unsigned argument as it is. *)
Lemma fabsf_unsigned f : unsigned f -> fabsf f = f.
Proof.
  intros Hf. unfold fabsf, F64.geb.
  destruct f as [s | s | | s m e]; simpl in Hf; subst; try reflexivity.
  pose proof (to_double_sign false (S754_finite false m e) eq_refl) as H.
  destruct (to_double (S754_finite false m e)) as [s | s | | s m' e'];
    simpl in H; subst; try reflexivity; contradiction.
Qed.

Lemma SFcompare_antisym a b :
  SFcompare b a = option_map CompOpp (SFcompare a b).
Proof.
  destruct a as [[] | [] | | [] ma ea], b as [[] | [] | | [] mb eb];
    simpl; try reflexivity;
    rewrite (Z.compare_antisym ea eb);
    destruct (ea ?= eb); simpl; try reflexivity; f_equal.
  - rewrite CompOpp_involutive.
    exact (Pos.compare_cont_antisym mb ma Eq).
  - symmetry. exact (Pos.compare_cont_antisym ma mb Eq).
Qed.

Lemma gtb_not_ltb a b : F64.gtb a b = true -> F64.ltb a b = false.
Proof.
  unfold F64.gtb, F64.ltb, SFltb. rewrite (SFcompare_antisym a b).
  destruct (SFcompare a b) as [[] |]; simpl; congruence.
Qed.

Lemma geb_not_ltb a b : F64.geb a b = true -> F64.ltb a b = false.
Proof.
  unfold F64.geb, F64.ltb, SFleb, SFltb. rewrite (SFcompare_antisym a b).
  destruct (SFcompare a b) as [[] |]; simpl; congruence.
Qed.

Lemma ltb_not_gtb a b : F64.ltb a b = true -> F64.gtb a b = false.
Proof.
  unfold F64.gtb, F64.ltb, SFltb. rewrite (SFcompare_antisym a b).
  destruct (SFcompare a b) as [[] |]; simpl; congruence.
Qed.

Lemma leb_not_gtb a b : F64.leb a b = true -> F64.gtb a b = false.
Proof.
  unfold F64.gtb, F64.leb, SFleb, SFltb. rewrite (SFcompare_antisym a b).
  destruct (SFcompare a b) as [[] |]; simpl; congruence.
Qed.

(** The metric is a sum of three squares added to [0.0]. *)
Lemma cost_unsigned m nx ny : unsigned (e_fxy (evaluate m nx ny)).
Proof.
  cbv beta iota zeta delta [evaluate e_fxy].
  repeat apply add_unsigned; try apply mul_self_unsigned.
  exact (eq_refl false).
Qed.

End FloatFacts.

(** ** The solver loop *)

Section SolverFacts.

Variable m : measurement.

Lemma position_after_cons nx ny p lcd :
  position_after nx ny (p :: lcd) = position_after (p_x p) (p_y p) lcd.
Proof.
  unfold position_after. simpl.
  destruct (rev lcd) as [| q r] eqn:E; simpl; reflexivity.
Qed.

Lemma wrap_succ it :
  0 <= it < MAX_ITERATIONS -> Int.wrap_s32 (it + 1) = it + 1.
Proof.
  intros H. apply wrap_s32_small.
  unfold Int.is_int32, Int.INT32_MIN, Int.INT32_MAX, MAX_ITERATIONS in *.
  rewrite half_modulus_eq. lia.
Qed.

Lemma keep_going_cap f it : keep_going f it = true -> it < MAX_ITERATIONS.
Proof.
  unfold keep_going. rewrite andb_true_iff, Z.ltb_lt. tauto.
Qed.

(** The body of the loop, with the update of the round named. *)
Lemma loop_body_eq nx ny it :
  loop_body m nx ny it =
  if stationary (evaluate m nx ny) then
    Stop {| new_x := nx; new_y := ny;
            new_fxy := e_fxy (evaluate m nx ny); iters := it |} []
  else if negb (Lcd.shown_fits (line_of m nx ny it)) then
    Smash (line_of m nx ny it)
  else if keep_going (e_fxy (evaluate m nx ny)) (Int.wrap_s32 (it + 1)) then
    Again (p_x (line_of m nx ny it)) (p_y (line_of m nx ny it))
          (Int.wrap_s32 (it + 1)) (line_of m nx ny it)
  else
    Stop {| new_x := p_x (line_of m nx ny it);
            new_y := p_y (line_of m nx ny it);
            new_fxy := e_fxy (evaluate m nx ny);
            iters := Int.wrap_s32 (it + 1) |}
         [line_of m nx ny it].
Proof. reflexivity. Qed.

(** What one round does, case by case. *)
Lemma loop_body_break nx ny it :
  stationary (evaluate m nx ny) = true ->
  loop_body m nx ny it =
  Stop {| new_x := nx; new_y := ny;
          new_fxy := e_fxy (evaluate m nx ny); iters := it |} [].
Proof. intros H. rewrite loop_body_eq, H. reflexivity. Qed.

Lemma loop_body_smash nx ny it :
  stationary (evaluate m nx ny) = false ->
  Lcd.shown_fits (line_of m nx ny it) = false ->
  loop_body m nx ny it = Smash (line_of m nx ny it).
Proof. intros H F. rewrite loop_body_eq, H, F. reflexivity. Qed.

Lemma loop_body_leave nx ny it :
  stationary (evaluate m nx ny) = false ->
  Lcd.shown_fits (line_of m nx ny it) = true ->
  keep_going (e_fxy (evaluate m nx ny)) (Int.wrap_s32 (it + 1)) = false ->
  loop_body m nx ny it =
  Stop {| new_x := p_x (line_of m nx ny it); new_y := p_y (line_of m nx ny it);
          new_fxy := e_fxy (evaluate m nx ny);
          iters := Int.wrap_s32 (it + 1) |}
       [line_of m nx ny it].
Proof. intros H F K. rewrite loop_body_eq, H, F, K. reflexivity. Qed.

Lemma loop_body_again nx ny it :
  stationary (evaluate m nx ny) = false ->
  Lcd.shown_fits (line_of m nx ny it) = true ->
  keep_going (e_fxy (evaluate m nx ny)) (Int.wrap_s32 (it + 1)) = true ->
  loop_body m nx ny it =
  Again (p_x (line_of m nx ny it)) (p_y (line_of m nx ny it))
        (Int.wrap_s32 (it + 1)) (line_of m nx ny it).
Proof. intros H F K. rewrite loop_body_eq, H, F, K. reflexivity. Qed.

Lemma solver_loop_step fuel nx ny it :
  solver_loop (S fuel) m nx ny it =
  match loop_body m nx ny it with
  | Stop h lcd => Finished h lcd
  | Again nx' ny' it' shown =>
      after_update shown (solver_loop fuel m nx' ny' it')
  | Smash shown => Overran [shown]
  end.
Proof. reflexivity. Qed.

Lemma finished_inv h h' (lcd lcd' : list progress) :
  Finished h lcd = Finished h' lcd' -> h' = h /\ lcd' = lcd.
Proof. intros H. inversion H. split; reflexivity. Qed.

Lemma overran_inv (lcd lcd' : list progress) :
  Overran lcd = Overran lcd' -> lcd' = lcd.
Proof. intros H. inversion H. reflexivity. Qed.

Lemma after_update_finished p r h lcd :
  after_update p r = Finished h lcd ->
  exists rest, r = Finished h rest /\ lcd = p :: rest.
Proof.
  destruct r as [h0 l0 | l0 | l0]; intros H;
    [| discriminate H | discriminate H].
  apply finished_inv in H. destruct H as [Hh Hl]. subst h lcd.
  exists l0. split; reflexivity.
Qed.

Lemma after_update_overran p r lcd :
  after_update p r = Overran lcd ->
  exists rest, r = Overran rest /\ lcd = p :: rest.
Proof.
  destruct r as [h0 l0 | l0 | l0]; intros H;
    [discriminate H | | discriminate H].
  apply overran_inv in H. subst lcd.
  exists l0. split; reflexivity.
Qed.

Lemma after_update_fuel p r :
  (forall lcd, r <> OutOfFuel lcd) ->
  forall lcd, after_update p r <> OutOfFuel lcd.
Proof.
  intros Hr lcd. destruct r as [h0 l0 | l0 | l0]; intros H;
    [discriminate H | discriminate H |].
  apply (Hr l0). reflexivity.
Qed.

Lemma updates_after_update p r :
  updates_of (after_update p r) = p :: updates_of r.
Proof. destruct r; reflexivity. Qed.

(** With fuel for the iterations that are left the loop is left, or a
    round overruns [buf], within [MAX_ITERATIONS - it] rounds. *)
Lemma solver_loop_total fuel : forall nx ny it,
  0 <= it < MAX_ITERATIONS ->
  MAX_ITERATIONS - it <= Z.of_nat fuel ->
  (exists h lcd,
     solver_loop fuel m nx ny it = Finished h lcd /\
     it <= iters h <= MAX_ITERATIONS /\
     Z.of_nat (length lcd) = iters h - it) \/
  (exists lcd,
     solver_loop fuel m nx ny it = Overran lcd /\
     1 <= Z.of_nat (length lcd) <= MAX_ITERATIONS - it).
Proof.
  induction fuel as [| fuel IH]; intros nx ny it Hit Hfuel.
  - lia.
  - rewrite solver_loop_step.
    destruct (stationary (evaluate m nx ny)) eqn:Est.
    + rewrite (loop_body_break _ _ _ Est). left.
      eexists; eexists; split; [reflexivity |]. cbn [iters length]. lia.
    + destruct (Lcd.shown_fits (line_of m nx ny it)) eqn:Efit.
      * destruct (keep_going (e_fxy (evaluate m nx ny))
                    (Int.wrap_s32 (it + 1))) eqn:Ek.
        -- rewrite (loop_body_again _ _ _ Est Efit Ek).
           pose proof (keep_going_cap _ _ Ek) as Hcap.
           rewrite (wrap_succ it Hit) in *.
           destruct (IH (p_x (line_of m nx ny it)) (p_y (line_of m nx ny it))
                        (it + 1))
             as [(h & lcd & Hrun & Hb & Hlen) | (lcd & Hrun & Hlen)].
           { lia. }
           { lia. }
           ++ rewrite Hrun. left.
              exists h, (line_of m nx ny it :: lcd).
              split; [reflexivity |]. cbn [length]. lia.
           ++ rewrite Hrun. right.
              exists (line_of m nx ny it :: lcd).
              split; [reflexivity |]. cbn [length]. lia.
        -- rewrite (loop_body_leave _ _ _ Est Efit Ek).
           rewrite (wrap_succ it Hit). left.
           eexists; eexists; split; [reflexivity |]. cbn [iters length]. lia.
      * rewrite (loop_body_smash _ _ _ Est Efit). right.
        eexists; split; [reflexivity |]. cbn [length]. lia.
Qed.

(** More fuel does not change an outcome that did not lack fuel. *)
Lemma solver_loop_more_fuel fuel : forall fuel' nx ny it,
  (forall lcd, solver_loop fuel m nx ny it <> OutOfFuel lcd) ->
  (fuel <= fuel')%nat ->
  solver_loop fuel' m nx ny it = solver_loop fuel m nx ny it.
Proof.
  induction fuel as [| fuel IH]; intros fuel' nx ny it Hrun Hle.
  - exfalso. apply (Hrun []). reflexivity.
  - destruct fuel' as [| fuel']; [lia |].
    rewrite solver_loop_step in Hrun. rewrite !solver_loop_step.
    destruct (loop_body m nx ny it) as [h lcd | nx' ny' it' shown | shown];
      try reflexivity.
    rewrite (IH fuel' nx' ny' it'); [reflexivity | | lia].
    intros lcd E. apply (Hrun (shown :: lcd)). rewrite E. reflexivity.
Qed.

(** The updates of a run, whatever its outcome, chain from the position
    the loop was entered at. *)
Lemma solver_loop_chain fuel : forall nx ny it,
  0 <= it < MAX_ITERATIONS ->
  run_of m nx ny it (updates_of (solver_loop fuel m nx ny it)).
Proof.
  induction fuel as [| fuel IH]; intros nx ny it Hit.
  - exact I.
  - rewrite solver_loop_step.
    destruct (stationary (evaluate m nx ny)) eqn:Est.
    + rewrite (loop_body_break _ _ _ Est). exact I.
    + destruct (Lcd.shown_fits (line_of m nx ny it)) eqn:Efit.
      * destruct (keep_going (e_fxy (evaluate m nx ny))
                    (Int.wrap_s32 (it + 1))) eqn:Ek.
        -- rewrite (loop_body_again _ _ _ Est Efit Ek).
           pose proof (keep_going_cap _ _ Ek) as Hcap.
           rewrite (wrap_succ it Hit) in *.
           rewrite updates_after_update. cbn [run_of].
           split; [exact Est | split; [reflexivity | split]].
           ++ intros _. split; [exact Efit | exact Ek].
           ++ apply IH. lia.
        -- rewrite (loop_body_leave _ _ _ Est Efit Ek).
           cbn [updates_of run_of].
           split; [exact Est | split; [reflexivity | split; [| exact I]]].
           intros H. contradiction.
      * rewrite (loop_body_smash _ _ _ Est Efit).
        cbn [updates_of run_of].
        split; [exact Est | split; [reflexivity | split; [| exact I]]].
        intros H. contradiction.
Qed.

(** A loop that was left, described by its last round. *)
Lemma solver_loop_finished fuel : forall nx ny it h lcd,
  0 <= it < MAX_ITERATIONS ->
  solver_loop fuel m nx ny it = Finished h lcd ->
  Forall (fun p => Lcd.shown_fits p = true) lcd /\
  (new_x h, new_y h) = position_after nx ny lcd /\
  iters h = it + Z.of_nat (length lcd) /\
  ((stationary (evaluate m (new_x h) (new_y h)) = true /\
    new_fxy h = e_fxy (evaluate m (new_x h) (new_y h)))
   \/
   (exists p, last lcd p = p /\ In p lcd /\ new_fxy h = p_fxy p /\
              keep_going (p_fxy p) (iters h) = false)).
Proof.
  induction fuel as [| fuel IH]; intros nx ny it h lcd Hit Hrun.
  - discriminate Hrun.
  - rewrite solver_loop_step in Hrun.
    destruct (stationary (evaluate m nx ny)) eqn:Est.
    + rewrite (loop_body_break _ _ _ Est) in Hrun.
      apply finished_inv in Hrun. destruct Hrun as [Hh Hl]. subst h lcd.
      cbn [new_x new_y new_fxy iters length].
      split; [constructor | split; [reflexivity | split; [lia |]]].
      left. split; [exact Est | reflexivity].
    + destruct (Lcd.shown_fits (line_of m nx ny it)) eqn:Efit.
      * destruct (keep_going (e_fxy (evaluate m nx ny))
                    (Int.wrap_s32 (it + 1))) eqn:Ek.
        -- rewrite (loop_body_again _ _ _ Est Efit Ek) in Hrun.
           pose proof (keep_going_cap _ _ Ek) as Hcap.
           rewrite (wrap_succ it Hit) in *.
           apply after_update_finished in Hrun.
           destruct Hrun as (lcd' & E & Hl). subst lcd.
           assert (Hit' : 0 <= it + 1 < MAX_ITERATIONS) by lia.
           destruct (IH _ _ _ _ _ Hit' E) as (Hfit & Hpos & Hlen & Hend).
           split; [| split; [| split]].
           ++ constructor; [exact Efit | exact Hfit].
           ++ rewrite position_after_cons. exact Hpos.
           ++ rewrite Hlen. cbn [length]. lia.
           ++ destruct Hend as [Hend | (p & Hlast & Hin & Hf & Hk)];
                [left; exact Hend | right].
              exists p. destruct lcd' as [| q r]; [contradiction |].
              split; [exact Hlast | split; [right; exact Hin | split]];
                assumption.
        -- rewrite (loop_body_leave _ _ _ Est Efit Ek) in Hrun.
           rewrite (wrap_succ it Hit) in *.
           apply finished_inv in Hrun. destruct Hrun as [Hh Hl]. subst h lcd.
           split; [| split; [| split]].
           ++ constructor; [exact Efit | constructor].
           ++ reflexivity.
           ++ cbn [iters length]. lia.
           ++ right. exists (line_of m nx ny it).
              split; [reflexivity | split; [left; reflexivity | split]].
              ** cbn [new_fxy]. unfold line_of. cbn [p_fxy]. reflexivity.
              ** cbn [iters]. unfold line_of. cbn [p_fxy]. exact Ek.
      * rewrite (loop_body_smash _ _ _ Est Efit) in Hrun. discriminate Hrun.
Qed.

Lemma solver_loop_bounded fuel : forall nx ny it h lcd,
  0 <= it < MAX_ITERATIONS ->
  solver_loop fuel m nx ny it = Finished h lcd ->
  it <= iters h <= MAX_ITERATIONS.
Proof.
  induction fuel as [| fuel IH]; intros nx ny it h lcd Hit Hrun.
  - discriminate Hrun.
  - rewrite solver_loop_step in Hrun.
    destruct (stationary (evaluate m nx ny)) eqn:Est.
    + rewrite (loop_body_break _ _ _ Est) in Hrun.
      apply finished_inv in Hrun. destruct Hrun as [Hh _]. subst h.
      cbn [iters]. lia.
    + destruct (Lcd.shown_fits (line_of m nx ny it)) eqn:Efit.
      * destruct (keep_going (e_fxy (evaluate m nx ny))
                    (Int.wrap_s32 (it + 1))) eqn:Ek.
        -- rewrite (loop_body_again _ _ _ Est Efit Ek) in Hrun.
           pose proof (keep_going_cap _ _ Ek) as Hcap.
           rewrite (wrap_succ it Hit) in *.
           apply after_update_finished in Hrun.
           destruct Hrun as (lcd' & E & _).
           assert (Hit' : 0 <= it + 1 < MAX_ITERATIONS) by lia.
           pose proof (IH _ _ _ _ _ Hit' E). lia.
        -- rewrite (loop_body_leave _ _ _ Est Efit Ek) in Hrun.
           rewrite (wrap_succ it Hit) in *.
           apply finished_inv in Hrun. destruct Hrun as [Hh _]. subst h.
           cbn [iters]. lia.
      * rewrite (loop_body_smash _ _ _ Est Efit) in Hrun. discriminate Hrun.
Qed.

(** A run that ended in an overrun: every update before the last fitted
    [buf], the last did not, and it was made within the iteration cap. *)
Lemma solver_loop_overran fuel : forall nx ny it lcd,
  0 <= it < MAX_ITERATIONS ->
  solver_loop fuel m nx ny it = Overran lcd ->
  exists before p,
    lcd = before ++ [p] /\
    Forall (fun q => Lcd.shown_fits q = true) before /\
    Lcd.shown_fits p = false /\
    it + Z.of_nat (length lcd) <= MAX_ITERATIONS.
Proof.
  induction fuel as [| fuel IH]; intros nx ny it lcd Hit Hrun.
  - discriminate Hrun.
  - rewrite solver_loop_step in Hrun.
    destruct (stationary (evaluate m nx ny)) eqn:Est.
    + rewrite (loop_body_break _ _ _ Est) in Hrun. discriminate Hrun.
    + destruct (Lcd.shown_fits (line_of m nx ny it)) eqn:Efit.
      * destruct (keep_going (e_fxy (evaluate m nx ny))
                    (Int.wrap_s32 (it + 1))) eqn:Ek.
        -- rewrite (loop_body_again _ _ _ Est Efit Ek) in Hrun.
           pose proof (keep_going_cap _ _ Ek) as Hcap.
           rewrite (wrap_succ it Hit) in *.
           apply after_update_overran in Hrun.
           destruct Hrun as (lcd' & E & Hl). subst lcd.
           assert (Hit' : 0 <= it + 1 < MAX_ITERATIONS) by lia.
           destruct (IH _ _ _ _ Hit' E) as (before & p & Hl & Hfit & Hp & Hlen).
           exists (line_of m nx ny it :: before), p.
           split; [rewrite Hl; reflexivity | split; [| split]].
           ++ constructor; [exact Efit | exact Hfit].
           ++ exact Hp.
           ++ cbn [length]. lia.
        -- rewrite (loop_body_leave _ _ _ Est Efit Ek) in Hrun.
           discriminate Hrun.
      * rewrite (loop_body_smash _ _ _ Est Efit) in Hrun.
        apply overran_inv in Hrun. subst lcd.
        exists [], (line_of m nx ny it).
        split; [reflexivity | split; [constructor | split; [exact Efit |]]].
        cbn [length]. lia.
Qed.

End SolverFacts.

(** ** The accessor *)

Section PublishedFacts.

(** C9: [position_data_available] returns the flag as it stood, which is
    nonzero exactly when there is unseen fresh data, and clears it without
    touching the position; so a second call right after it returns zero,
    and after an accepted cycle (flag set to 1) two calls in a row return
    1 then 0. *)
Theorem position_data_available_test_and_clear (st : published) :
  let first := position_data_available st in
  let second := position_data_available (snd first) in
  fst first = new_data st /\
  (fst first <> 0 <-> new_data st <> 0) /\
  new_data (snd first) = 0 /\
  (x (snd first), y (snd first), fxy (snd first)) = (x st, y st, fxy st) /\
  fst second = 0 /\
  snd second = snd first /\
  (new_data st = 1 -> (fst first, fst second) = (1, 0)).
Proof.
  unfold position_data_available. cbn [fst snd new_data x y fxy].
  repeat split; auto. intros ->. reflexivity.
Qed.

End PublishedFacts.

(** ** Acquisition and the tick delta *)

Section AcquisitionFacts.

(** Against C3 as stated.  The comparison of line 128 aborts the cycle for
    a nonzero timestamp in the middle of the counter's range, a whole
    [2^31] ticks away from either end: the check does not fail only near
    counter wraparound. *)
Lemma staleness_rejects_mid_range :
  Int.is_uint32 2147483648 /\
  2147483648 <> 0 /\
  garbage_time 2147483648 = true /\
  ~ near_wraparound 2147483648 /\
  ~ (forall t, Int.is_uint32 t -> t <> 0 ->
               garbage_time t = true -> near_wraparound t).
Proof.
  assert (Hr : Int.is_uint32 2147483648)
    by (unfold Int.is_uint32; change Int.ULONG_MAX with 4294967295; lia).
  assert (Hn : ~ near_wraparound 2147483648).
  { unfold near_wraparound. change Int.ULONG_MAX with 4294967295.
    change CLOCK_FREQ with 1000000. lia. }
  split; [exact Hr |]. split; [lia |]. split; [reflexivity |].
  split; [exact Hn |].
  intros H. apply Hn. apply H; [exact Hr | lia | reflexivity].
Qed.

(** C3 (amended): a nonzero captured timestamp aborts the cycle exactly
    when it is below the maximum representable value minus one second's
    worth of ticks; the comparison is passed only by the [CLOCK_FREQ + 1]
    values from [ULONG_MAX - CLOCK_FREQ] up to [ULONG_MAX]. *)
Theorem staleness_check_literal (t : Z) :
  Int.is_uint32 t -> t <> 0 ->
  (garbage_time t = true <-> t < Int.ULONG_MAX - CLOCK_FREQ) /\
  (garbage_time t = false <->
   Int.ULONG_MAX - CLOCK_FREQ <= t <= Int.ULONG_MAX).
Proof.
  intros Hr Hnz.
  pose proof (garbage_time_spec t) as Hg. rewrite stale_limit_eq in Hg.
  unfold Int.is_uint32 in Hr.
  change Int.ULONG_MAX with 4294967295 in *.
  change CLOCK_FREQ with 1000000.
  split.
  - rewrite Hg. lia.
  - destruct (garbage_time t).
    + split; [discriminate |]. intros H.
      assert (t = 0 \/ t < 4293967295) by (apply Hg; reflexivity). lia.
    + split; [| reflexivity]. intros _.
      destruct (Z_lt_le_dec t 4293967295) as [Hlt | Hge]; [| lia].
      assert (false = true) by (apply Hg; right; exact Hlt). discriminate.
Qed.

Lemma staleness_check_literal_witness :
  (garbage_time 1000 = true <-> 1000 < Int.ULONG_MAX - CLOCK_FREQ) /\
  (garbage_time 1000 = false <->
   Int.ULONG_MAX - CLOCK_FREQ <= 1000 <= Int.ULONG_MAX).
Proof.
  apply (staleness_check_literal 1000).
  - unfold Int.is_uint32. change Int.ULONG_MAX with 4294967295. lia.
  - lia.
Defined.

(** The integer part of line 140 on two captures that passed line 128:
    no step leaves the range of [int32], and the value is the exact one. *)
Lemma tick_delta_fresh time0 timei i :
  fresh_time time0 -> fresh_time timei -> 1 <= i <= 3 ->
  Int.is_int32 (time0 - timei) /\
  Int.is_int32 (i * TICKS_PER_SPACING) /\
  Int.is_int32 ((time0 - timei) - i * TICKS_PER_SPACING) /\
  tick_delta time0 timei i = exact_tick_delta time0 timei i.
Proof.
  intros H0 Hi Hidx.
  apply fresh_time_range in H0. apply fresh_time_range in Hi.
  change Int.ULONG_MAX with 4294967295 in *.
  change CLOCK_FREQ with 1000000 in *.
  assert (R1 : Int.is_int32 (time0 - timei)).
  { unfold Int.is_int32, Int.INT32_MIN, Int.INT32_MAX.
    rewrite half_modulus_eq. lia. }
  assert (R2 : Int.is_int32 (i * TICKS_PER_SPACING)).
  { unfold Int.is_int32, Int.INT32_MIN, Int.INT32_MAX.
    rewrite half_modulus_eq, ticks_per_spacing_eq. lia. }
  assert (R3 : Int.is_int32 ((time0 - timei) - i * TICKS_PER_SPACING)).
  { unfold Int.is_int32, Int.INT32_MIN, Int.INT32_MAX.
    rewrite half_modulus_eq, ticks_per_spacing_eq. lia. }
  split; [exact R1 |]. split; [exact R2 |]. split; [exact R3 |].
  unfold tick_delta, exact_tick_delta, Int.sub_s32, Int.mul_s32.
  rewrite (cast_sub_u32 _ _ R1), (wrap_s32_small _ R2), (wrap_s32_small _ R3).
  rewrite ticks_per_spacing_eq. reflexivity.
Qed.

(** C5: for two captured timestamps that passed the validity check, the
    tick-delta computation [(time[0] - time[i]) - i * spacing] stays
    within [int32] at every step (the difference of the timestamps, the
    product, the final subtraction), and the [int32] result handed to the
    conversion to floating point is the exact mathematical value. *)
Theorem tick_delta_exact (time0 timei i : Z) :
  fresh_time time0 -> fresh_time timei -> 1 <= i <= 3 ->
  tick_delta time0 timei i = (time0 - timei) - i * 100000 /\
  Int.is_int32 (time0 - timei) /\
  Int.is_int32 (i * 100000) /\
  Int.is_int32 (tick_delta time0 timei i) /\
  - 1300000 <= tick_delta time0 timei i <= 900000.
Proof.
  intros H0 Hi Hidx.
  destruct (tick_delta_fresh time0 timei i H0 Hi Hidx)
    as (R1 & R2 & R3 & E).
  rewrite E. unfold exact_tick_delta.
  rewrite ticks_per_spacing_eq in *.
  change (CLOCK_FREQ / 1000 * TX_SPACING) with 100000.
  split; [reflexivity |]. split; [exact R1 |]. split; [exact R2 |].
  split; [exact R3 |].
  apply fresh_time_range in H0. apply fresh_time_range in Hi.
  change Int.ULONG_MAX with 4294967295 in *.
  change CLOCK_FREQ with 1000000 in *. lia.
Qed.

Lemma fresh_time_examples :
  fresh_time 4294000000 /\ fresh_time 4294900001.
Proof.
  split; apply fresh_time_range;
    change Int.ULONG_MAX with 4294967295;
    change CLOCK_FREQ with 1000000; lia.
Defined.

Lemma tick_delta_exact_witness :
  tick_delta 4294000000 4294900001 3
  = (4294000000 - 4294900001) - 3 * 100000 /\
  Int.is_int32 (4294000000 - 4294900001) /\
  Int.is_int32 (3 * 100000) /\
  Int.is_int32 (tick_delta 4294000000 4294900001 3) /\
  - 1300000 <= tick_delta 4294000000 4294900001 3 <= 900000.
Proof.
  apply (tick_delta_exact 4294000000 4294900001 3).
  - exact (proj1 fresh_time_examples).
  - exact (proj2 fresh_time_examples).
  - lia.
Defined.

End AcquisitionFacts.

(** ** The handler, check by check *)

Section HandlerFacts.

Variable cap : captures.

Lemma acquire_four :
  acquire cap 0 4 =
  if valid cap then inr [cap 0%nat; cap 1%nat; cap 2%nat; cap 3%nat]
  else inl (if garbage_time (cap 0%nat) then 0%nat
            else if garbage_time (cap 1%nat) then 1%nat
            else if garbage_time (cap 2%nat) then 2%nat else 3%nat).
Proof.
  unfold valid. cbn [acquire existsb].
  destruct (garbage_time (cap 0%nat)); [reflexivity |].
  destruct (garbage_time (cap 1%nat)); [reflexivity |].
  destruct (garbage_time (cap 2%nat)); [reflexivity |].
  destruct (garbage_time (cap 3%nat)); reflexivity.
Qed.

Lemma differences_three :
  differences [cap 0%nat; cap 1%nat; cap 2%nat; cap 3%nat] 1 3 =
  if plausible cap then inr [diff_of cap 1; diff_of cap 2; diff_of cap 3]
  else inl (if implausible (diff_of cap 1) then 1%nat
            else if implausible (diff_of cap 2) then 2%nat else 3%nat).
Proof.
  unfold plausible, diff_of. cbn [differences existsb nth].
  destruct (implausible (distance_difference (cap 0%nat) (cap 1%nat) _));
    [reflexivity |].
  destruct (implausible (distance_difference (cap 0%nat) (cap 2%nat) _));
    [reflexivity |].
  destruct (implausible (distance_difference (cap 0%nat) (cap 3%nat) _));
    reflexivity.
Qed.

Lemma measurement_of_three d1 d2 d3 :
  measurement_of [d1; d2; d3] = {| diff1 := d1; diff2 := d2; diff3 := d3 |}.
Proof. reflexivity. Qed.

(** A cycle that fails a check returns with the state as it was. *)
Lemma handler_rejects fuel st :
  passes cap = false -> positioningHandler fuel cap st = Returned st.
Proof.
  unfold passes, positioningHandler. intros H.
  rewrite acquire_four.
  destruct (valid cap); [| reflexivity].
  rewrite differences_three.
  destruct (plausible cap); [discriminate | reflexivity].
Qed.

(** A cycle that passes both checks runs the solver on its measurement,
    seeded with the published position, and then decides on publishing. *)
Lemma handler_solves fuel st :
  passes cap = true ->
  positioningHandler fuel cap st =
  match solve fuel st (cycle_measurement cap) with
  | Finished h _ => Returned (publish st h)
  | Overran _ => BufferOverrun
  | OutOfFuel _ => NoFuel
  end.
Proof.
  unfold passes, positioningHandler. intros H.
  rewrite acquire_four.
  destruct (valid cap); [| discriminate].
  rewrite differences_three.
  destruct (plausible cap); [| discriminate].
  rewrite measurement_of_three. reflexivity.
Qed.

Lemma handler_finished fuel st h lcd :
  passes cap = true ->
  solve fuel st (cycle_measurement cap) = Finished h lcd ->
  positioningHandler fuel cap st = Returned (publish st h).
Proof. intros P Hs. rewrite (handler_solves fuel st P), Hs. reflexivity. Qed.

Lemma handler_overran fuel st lcd :
  passes cap = true ->
  solve fuel st (cycle_measurement cap) = Overran lcd ->
  positioningHandler fuel cap st = BufferOverrun.
Proof. intros P Hs. rewrite (handler_solves fuel st P), Hs. reflexivity. Qed.

Lemma valid_spec :
  valid cap = true <->
  forall i, (i < 4)%nat -> garbage_time (cap i) = false.
Proof.
  unfold valid. cbn [existsb]. split.
  - intros H i Hi.
    destruct (garbage_time (cap 0%nat)) eqn:E0; [discriminate |].
    destruct (garbage_time (cap 1%nat)) eqn:E1; [discriminate |].
    destruct (garbage_time (cap 2%nat)) eqn:E2; [discriminate |].
    destruct (garbage_time (cap 3%nat)) eqn:E3; [discriminate |].
    destruct i as [| [| [| [| i]]]]; try assumption. lia.
  - intros H.
    rewrite (H 0%nat), (H 1%nat), (H 2%nat), (H 3%nat) by lia. reflexivity.
Qed.

Lemma plausible_spec :
  plausible cap = true <->
  forall i, (1 <= i < 4)%nat -> implausible (diff_of cap i) = false.
Proof.
  unfold plausible. cbn [existsb]. split.
  - intros H i Hi.
    destruct (implausible (diff_of cap 1)) eqn:E1; [discriminate |].
    destruct (implausible (diff_of cap 2)) eqn:E2; [discriminate |].
    destruct (implausible (diff_of cap 3)) eqn:E3; [discriminate |].
    destruct i as [| [| [| [| i]]]]; try assumption; lia.
  - intros H.
    rewrite (H 1%nat), (H 2%nat), (H 3%nat) by lia. reflexivity.
Qed.

End HandlerFacts.

(** ** Differences and rejection *)

Section CycleFacts.

Lemma distance_difference_fresh time0 timei i :
  fresh_time time0 -> fresh_time timei -> 1 <= i <= 3 ->
  distance_difference time0 timei i = spec_distance_difference time0 timei i.
Proof.
  intros H0 Hi Hidx.
  destruct (tick_delta_fresh time0 timei i H0 Hi Hidx) as (_ & _ & _ & E).
  unfold distance_difference, spec_distance_difference, FEET_PER_TICK.
  rewrite E. reflexivity.
Qed.

(** C4: on a cycle that gets as far as the solver, the differences
    [diff[1]], [diff[2]], [diff[3]] the handler computed are, for
    [i = 1..3], the signed tick delta [time[0] - time[i]] minus [i] times
    the inter-pulse spacing in ticks, scaled by [WAVE_SPEED / CLOCK_FREQ]:
    the wrap-around arithmetic of the code yields the value of the formula
    read over the integers. *)
Theorem tdoa_differences_formula (cap : captures) time diff :
  (forall i, Int.is_uint32 (cap i)) ->
  acquire cap 0 4 = inr time ->
  differences time 1 3 = inr diff ->
  time = [cap 0%nat; cap 1%nat; cap 2%nat; cap 3%nat] /\
  diff = [spec_distance_difference (cap 0%nat) (cap 1%nat) 1;
          spec_distance_difference (cap 0%nat) (cap 2%nat) 2;
          spec_distance_difference (cap 0%nat) (cap 3%nat) 3].
Proof.
  intros Hrange Ha Hd.
  rewrite acquire_four in Ha.
  destruct (valid cap) eqn:V; [| discriminate Ha].
  assert (Ht : time = [cap 0%nat; cap 1%nat; cap 2%nat; cap 3%nat])
    by congruence.
  subst time. split; [reflexivity |].
  rewrite differences_three in Hd.
  destruct (plausible cap); [| discriminate Hd].
  assert (Hdiff : diff = [diff_of cap 1; diff_of cap 2; diff_of cap 3])
    by congruence.
  subst diff. unfold diff_of.
  assert (F : forall i, (i < 4)%nat -> fresh_time (cap i)).
  { intros i Hi. split; [apply Hrange |].
    apply (proj1 (valid_spec cap) V i Hi). }
  change (Z.of_nat 1) with 1. change (Z.of_nat 2) with 2.
  change (Z.of_nat 3) with 3.
  rewrite !distance_difference_fresh by (try apply F; lia).
  reflexivity.
Qed.

Lemma captured_range t0 t1 t2 t3 :
  Int.is_uint32 t0 -> Int.is_uint32 t1 -> Int.is_uint32 t2 ->
  Int.is_uint32 t3 ->
  forall i, Int.is_uint32 (captured t0 t1 t2 t3 i).
Proof.
  intros H0 H1 H2 H3 i. unfold captured.
  destruct i as [| [| [| [| i]]]]; cbn [nth]; try assumption.
  destruct i; cbn [nth]; unfold Int.is_uint32;
    change Int.ULONG_MAX with 4294967295; lia.
Defined.

Lemma uint32_literal v :
  (0 <=? v) && (v <=? 4294967295) = true -> Int.is_uint32 v.
Proof.
  rewrite andb_true_iff, !Z.leb_le. unfold Int.is_uint32.
  change Int.ULONG_MAX with 4294967295. tauto.
Defined.

Lemma tdoa_differences_formula_witness :
  [4294967295; 4294867783; 4294765566; 4294665851]
  = [4294967295; 4294867783; 4294765566; 4294665851] /\
  [S754_finite true 9292564 (-24); S754_finite false 16461930 (-23);
   S754_finite false 13748425 (-23)]
  = [spec_distance_difference 4294967295 4294867783 1;
     spec_distance_difference 4294967295 4294765566 2;
     spec_distance_difference 4294967295 4294665851 3].
Proof.
  apply (tdoa_differences_formula
           (captured 4294967295 4294867783 4294765566 4294665851)).
  - apply captured_range; apply uint32_literal; reflexivity.
  - vm_compute. reflexivity.
  - vm_compute. reflexivity.
Defined.

(** C2: a cycle that is rejected, because a timestamp equals the sentinel
    zero, a timestamp fails the staleness comparison, a difference
    magnitude exceeds the plausibility bound, or the final cost (of a loop
    that was left) fails the acceptance check, makes the handler return
    with the published state as it was: [x], [y] and [fxy] keep their
    values and the new-data flag is not set. *)
Theorem rejected_cycle_keeps_state fuel cap st :
  rejected fuel cap st ->
  positioningHandler fuel cap st = Returned st.
Proof.
  intros Hrej.
  destruct (passes cap) eqn:P; [| apply handler_rejects; exact P].
  unfold passes in P. apply andb_true_iff in P. destruct P as [V Pl].
  destruct Hrej as [i Hi Hz | i Hi Hs | i Hi Him | h lcd Hs Ha].
  - pose proof (proj1 (valid_spec cap) V i Hi) as G.
    assert (garbage_time (cap i) = true)
      by (apply garbage_time_spec; left; exact Hz).
    congruence.
  - pose proof (proj1 (valid_spec cap) V i Hi) as G.
    assert (garbage_time (cap i) = true)
      by (apply garbage_time_spec; right; exact Hs).
    congruence.
  - pose proof (proj1 (plausible_spec cap) Pl i Hi) as G. congruence.
  - rewrite handler_solves by (unfold passes; rewrite V, Pl; reflexivity).
    rewrite Hs. unfold publish. rewrite Ha. reflexivity.
Qed.

Lemma rejected_cycle_keeps_state_witness :
  positioningHandler FUEL (captured 4294967295 0 4294765566 4294665851)
    initial = Returned initial /\
  positioningHandler FUEL (captured 4294967295 4294867295 1000 4294667295)
    initial = Returned initial /\
  positioningHandler FUEL
    (captured 4294967295 4294867295 4294767295 4294567295) initial
  = Returned initial /\
  positioningHandler FUEL ceiling_cycle initial = Returned initial.
Proof.
  split; [| split; [| split]].
  - apply rejected_cycle_keeps_state.
    apply (reject_zero _ _ _ 1%nat); [lia | reflexivity].
  - apply rejected_cycle_keeps_state.
    apply (reject_stale _ _ _ 2%nat); [lia | reflexivity].
  - apply rejected_cycle_keeps_state.
    apply (reject_implausible _ _ _ 3%nat); [lia | vm_compute; reflexivity].
  - apply rejected_cycle_keeps_state.
    apply (reject_cost _ _ _ (fst ceiling_run) (snd ceiling_run));
      vm_compute; reflexivity.
Defined.

End CycleFacts.

(** ** The specification's formulas in the code *)

Section SpecFacts.

Lemma corner_distance_spec a b : corner_distance a b = spec_distance a b.
Proof. reflexivity. Qed.

Lemma half_spec c : half c = F64.div c (F64.of_Z 2).
Proof. reflexivity. Qed.

(** The metric a round computes is the specification's cost at the
    position the round starts at. *)
Lemma evaluate_metric m nx ny :
  e_fxy (evaluate m nx ny) = spec_metric m nx ny.
Proof.
  unfold spec_metric, spec_residual, spec_corner, spec_measured.
  cbn [fold_left].
  rewrite <- !corner_distance_spec, <- !half_spec.
  reflexivity.
Qed.

Lemma evaluate_record m nx ny :
  exists f dx dy,
    evaluate m nx ny =
    {| e_fxy := f; e_dfx := dx; e_dfy := dy;
       e_gradient_magnitude_squared :=
         F32.add (F32.mul dx dx) (F32.mul dy dy) |}.
Proof. unfold evaluate. eexists; eexists; eexists. reflexivity. Qed.

(** Line 192: [gradient_magnitude_squared = dfx*dfx + dfy*dfy]. *)
Lemma evaluate_magnitude m nx ny :
  e_gradient_magnitude_squared (evaluate m nx ny) =
  F32.add (F32.mul (e_dfx (evaluate m nx ny)) (e_dfx (evaluate m nx ny)))
          (F32.mul (e_dfy (evaluate m nx ny)) (e_dfy (evaluate m nx ny))).
Proof.
  destruct (evaluate_record m nx ny) as (f & dx & dy & E). rewrite E.
  reflexivity.
Qed.

Lemma descend_spec ev c df :
  descend ev c df =
  spec_step c (e_fxy ev) df (e_gradient_magnitude_squared ev).
Proof. reflexivity. Qed.

Variable m : measurement.

Lemma line_of_fxy nx ny it :
  p_fxy (line_of m nx ny it) = e_fxy (evaluate m nx ny).
Proof. unfold line_of. cbn [p_fxy]. reflexivity. Qed.

Lemma line_of_dfx nx ny it :
  p_dfx (line_of m nx ny it) = e_dfx (evaluate m nx ny).
Proof. unfold line_of. cbn [p_dfx]. reflexivity. Qed.

Lemma line_of_dfy nx ny it :
  p_dfy (line_of m nx ny it) = e_dfy (evaluate m nx ny).
Proof. unfold line_of. cbn [p_dfy]. reflexivity. Qed.

Lemma line_of_gradient nx ny it :
  p_divisor (line_of m nx ny it)
  = e_gradient_magnitude_squared (evaluate m nx ny).
Proof. unfold line_of. cbn [p_divisor]. reflexivity. Qed.

Lemma line_of_x nx ny it :
  p_x (line_of m nx ny it)
  = descend (evaluate m nx ny) nx (e_dfx (evaluate m nx ny)).
Proof. unfold line_of. cbn [p_x]. reflexivity. Qed.

Lemma line_of_y nx ny it :
  p_y (line_of m nx ny it)
  = descend (evaluate m nx ny) ny (e_dfy (evaluate m nx ny)).
Proof. unfold line_of. cbn [p_y]. reflexivity. Qed.

Lemma line_of_divisor nx ny it :
  is_zero (p_divisor (line_of m nx ny it)) = stationary (evaluate m nx ny).
Proof. unfold line_of, is_zero, stationary. cbn [p_divisor]. reflexivity. Qed.

Lemma line_of_iters nx ny it : p_iters (line_of m nx ny it) = it.
Proof. unfold line_of. cbn [p_iters]. reflexivity. Qed.

(** The update of a round whose gradient is not zero is the update the
    specification describes. *)
Lemma line_of_spec_update cx cy it :
  stationary (evaluate m cx cy) = false ->
  spec_update m cx cy (line_of m cx cy it).
Proof.
  intros Hs. unfold spec_update.
  split; [rewrite line_of_fxy; apply evaluate_metric |].
  split; [apply line_of_dfx |].
  split; [apply line_of_dfy |].
  split; [rewrite line_of_gradient, line_of_dfx, line_of_dfy;
          apply evaluate_magnitude |].
  split; [rewrite line_of_divisor; exact Hs |].
  split.
  - rewrite line_of_x, line_of_fxy, line_of_dfx, line_of_gradient.
    apply descend_spec.
  - rewrite line_of_y, line_of_fxy, line_of_dfy, line_of_gradient.
    apply descend_spec.
Qed.

End SpecFacts.

(** ** Runs of the solver *)

Section RunFacts.

Variable m : measurement.

(** The [k]-th update of a run. *)
Lemma run_of_nth lcd : forall nx ny it k p,
  run_of m nx ny it lcd ->
  nth_error lcd k = Some p ->
  exists cx cy,
    p = line_of m cx cy (it + Z.of_nat k) /\
    stationary (evaluate m cx cy) = false /\
    (k = 0%nat -> (cx, cy) = (nx, ny)) /\
    (forall j q, k = S j -> nth_error lcd j = Some q ->
       (cx, cy) = (p_x q, p_y q)) /\
    (forall q, nth_error lcd (S k) = Some q ->
       Lcd.shown_fits p = true /\
       keep_going (p_fxy p) (it + Z.of_nat k + 1) = true /\
       q = line_of m (p_x p) (p_y p) (it + Z.of_nat k + 1)).
Proof.
  induction lcd as [| p0 rest IH]; intros nx ny it k p Hrun Hk.
  - destruct k; discriminate.
  - cbn [run_of] in Hrun. destruct Hrun as (Hst & Hp0 & Hkeep & Hrest).
    destruct k as [| k].
    + cbn [nth_error] in Hk. assert (p = p0) by congruence. subst p.
      exists nx, ny. rewrite Z.add_0_r.
      split; [exact Hp0 | split; [exact Hst | split; [reflexivity |]]].
      split; [intros j q Hj; discriminate Hj |].
      intros q Hq. cbn [nth_error] in Hq.
      destruct rest as [| q0 rest']; [discriminate |].
      cbn [nth_error] in Hq. assert (q = q0) by congruence. subst q.
      destruct Hkeep as [Hfit Hgo]; [discriminate |].
      split; [exact Hfit | split; [exact Hgo |]].
      cbn [run_of] in Hrest. tauto.
    + cbn [nth_error] in Hk.
      destruct (IH _ _ _ _ _ Hrest Hk) as (cx & cy & E & Hs & H0 & Hprev & Hnext).
      exists cx, cy.
      replace (it + Z.of_nat (S k)) with (it + 1 + Z.of_nat k) by lia.
      split; [exact E | split; [exact Hs | split; [discriminate |]]].
      split.
      * intros j q Hj Hq. assert (j = k) by congruence. subst j.
        destruct k as [| k'].
        -- cbn [nth_error] in Hq. assert (q = p0) by congruence. subst q.
           apply H0. reflexivity.
        -- cbn [nth_error] in Hq. apply (Hprev k' q eq_refl Hq).
      * intros q Hq. cbn [nth_error] in Hq. exact (Hnext q Hq).
Qed.

Lemma keep_going_not_converged f it :
  unsigned f -> keep_going f it = true ->
  converged f = false /\ cap_reached it = false.
Proof.
  intros Hf. unfold keep_going, converged, cap_reached.
  rewrite (fabsf_unsigned f Hf), andb_true_iff. intros [Hg Hc].
  split; [apply gtb_not_ltb; exact Hg |].
  apply Z.ltb_lt in Hc. apply Z.leb_gt. exact Hc.
Qed.

Lemma zero_start : 0 <= 0 < MAX_ITERATIONS.
Proof. unfold MAX_ITERATIONS. lia. Qed.

Lemma fuel_suffices fuel :
  (FUEL <= fuel)%nat -> MAX_ITERATIONS - 0 <= Z.of_nat fuel.
Proof. unfold FUEL, MAX_ITERATIONS. lia. Qed.

(** The same facts for the solver as the handler calls it. *)
Lemma solve_total fuel st :
  (FUEL <= fuel)%nat ->
  (exists h lcd,
     solve fuel st m = Finished h lcd /\
     0 <= iters h <= MAX_ITERATIONS /\
     Z.of_nat (length lcd) = iters h) \/
  (exists lcd,
     solve fuel st m = Overran lcd /\
     1 <= Z.of_nat (length lcd) <= MAX_ITERATIONS).
Proof.
  intros Hfuel. unfold solve.
  destruct (solver_loop_total m fuel (x st) (y st) 0 zero_start
              (fuel_suffices fuel Hfuel))
    as [(h & lcd & Hrun & Hb & Hlen) | (lcd & Hrun & Hlen)].
  - left. exists h, lcd. split; [exact Hrun | split; lia].
  - right. exists lcd. split; [exact Hrun | lia].
Qed.

Lemma solve_bounded fuel st h lcd :
  solve fuel st m = Finished h lcd -> 0 <= iters h <= MAX_ITERATIONS.
Proof.
  intros Hrun. unfold solve in Hrun.
  exact (solver_loop_bounded m fuel _ _ 0 h lcd zero_start Hrun).
Qed.

Lemma solve_fuelled fuel st :
  (FUEL <= fuel)%nat -> forall lcd, solve fuel st m <> OutOfFuel lcd.
Proof.
  intros Hfuel lcd0 E.
  destruct (solve_total fuel st Hfuel)
    as [(h & lcd & Hrun & _) | (lcd & Hrun & _)];
    rewrite Hrun in E; discriminate E.
Qed.

Lemma solve_chain fuel st :
  run_of m (x st) (y st) 0 (updates_of (solve fuel st m)).
Proof. unfold solve. apply solver_loop_chain. exact zero_start. Qed.

Lemma solve_last fuel st h lcd :
  solve fuel st m = Finished h lcd ->
  (stationary (evaluate m (new_x h) (new_y h)) = true /\
   new_fxy h = e_fxy (evaluate m (new_x h) (new_y h)))
  \/
  (exists p, last lcd p = p /\ In p lcd /\ new_fxy h = p_fxy p /\
             keep_going (p_fxy p) (iters h) = false).
Proof.
  intros Hrun. unfold solve in Hrun.
  destruct (solver_loop_finished m fuel _ _ 0 h lcd zero_start Hrun)
    as (_ & _ & _ & Hend).
  exact Hend.
Qed.

Lemma solve_run fuel st h lcd :
  solve fuel st m = Finished h lcd ->
  run_of m (x st) (y st) 0 lcd /\
  Forall (fun p => Lcd.shown_fits p = true) lcd /\
  (new_x h, new_y h) = position_after (x st) (y st) lcd /\
  iters h = Z.of_nat (length lcd) /\
  (stationary (evaluate m (new_x h) (new_y h)) = true \/
   keep_going (new_fxy h) (iters h) = false) /\
  unsigned (new_fxy h).
Proof.
  intros Hrun.
  pose proof (solve_chain fuel st) as Hr. rewrite Hrun in Hr.
  cbn [updates_of] in Hr.
  pose proof (solve_last fuel st h lcd Hrun) as Hend.
  unfold solve in Hrun.
  destruct (solver_loop_finished m fuel _ _ 0 h lcd zero_start Hrun)
    as (Hfit & Hpos & Hlen & _).
  split; [exact Hr | split; [exact Hfit | split; [exact Hpos |]]].
  split; [lia | split].
  - destruct Hend as [[Hs _] | (p & _ & _ & E & Hk)].
    + left. exact Hs.
    + right. rewrite E. exact Hk.
  - destruct Hend as [[_ E] | (p & _ & Hin & E & _)].
    + rewrite E. apply cost_unsigned.
    + apply In_nth_error in Hin. destruct Hin as [k Hk].
      destruct (run_of_nth lcd _ _ 0 k p Hr Hk) as (cx & cy & Ep & _).
      rewrite E, Ep, line_of_fxy. apply cost_unsigned.
Qed.

Lemma solve_overran fuel st lcd :
  solve fuel st m = Overran lcd ->
  run_of m (x st) (y st) 0 lcd /\
  exists before p,
    lcd = before ++ [p] /\
    Forall (fun q => Lcd.shown_fits q = true) before /\
    Lcd.shown_fits p = false /\
    Z.of_nat (length lcd) <= MAX_ITERATIONS.
Proof.
  intros Hrun.
  pose proof (solve_chain fuel st) as Hr. rewrite Hrun in Hr.
  cbn [updates_of] in Hr.
  split; [exact Hr |].
  unfold solve in Hrun.
  destruct (solver_loop_overran m fuel _ _ 0 lcd zero_start Hrun)
    as (before & p & Hl & Hfit & Hp & Hlen).
  exists before, p.
  split; [exact Hl | split; [exact Hfit | split; [exact Hp | lia]]].
Qed.

Lemma solve_more_fuel fuel fuel' st :
  (forall lcd, solve fuel st m <> OutOfFuel lcd) -> (fuel <= fuel')%nat ->
  solve fuel' st m = solve fuel st m.
Proof. unfold solve. apply solver_loop_more_fuel. Qed.

Lemma solve_step fuel st :
  solve (S fuel) st m =
  match loop_body m (x st) (y st) 0 with
  | Stop h lcd => Finished h lcd
  | Again nx' ny' it' shown =>
      after_update shown (solver_loop fuel m nx' ny' it')
  | Smash shown => Overran [shown]
  end.
Proof. unfold solve. apply solver_loop_step. Qed.

(** A seed whose gradient is not zero is updated, whatever comes after. *)
Lemma first_update fuel st :
  stationary (evaluate m (x st) (y st)) = false ->
  exists rest,
    updates_of (solve (S fuel) st m) = line_of m (x st) (y st) 0 :: rest.
Proof.
  intros Hs. rewrite solve_step.
  destruct (Lcd.shown_fits (line_of m (x st) (y st) 0)) eqn:Efit.
  - destruct (keep_going (e_fxy (evaluate m (x st) (y st)))
                (Int.wrap_s32 (0 + 1))) eqn:Ek.
    + rewrite (loop_body_again m _ _ 0 Hs Efit Ek).
      rewrite updates_after_update. eexists. reflexivity.
    + rewrite (loop_body_leave m _ _ 0 Hs Efit Ek).
      exists []. reflexivity.
  - rewrite (loop_body_smash m _ _ 0 Hs Efit). exists []. reflexivity.
Qed.

(** The test of the [while] on a value of the metric. *)
Lemma keep_going_converged f it :
  unsigned f -> converged f = true -> keep_going f it = false.
Proof.
  intros Hf. unfold keep_going, converged.
  rewrite (fabsf_unsigned f Hf). intros H.
  rewrite (ltb_not_gtb _ _ H). reflexivity.
Qed.

Lemma keep_going_at_threshold f it :
  unsigned f -> F64.leb (to_double f) ERROR_THRESHOLD = true ->
  keep_going f it = false.
Proof.
  intros Hf. unfold keep_going.
  rewrite (fabsf_unsigned f Hf). intros H.
  rewrite (leb_not_gtb _ _ H). reflexivity.
Qed.

Lemma keep_going_capped (f : F32.t) it :
  cap_reached it = true -> keep_going f it = false.
Proof.
  unfold keep_going, cap_reached. intros H.
  apply Z.leb_le in H. apply andb_false_iff. right.
  apply Z.ltb_ge. exact H.
Qed.

(** Each exit condition, when it holds in a round, ends the loop there:
    the round is not followed by another. *)
Lemma exit_conditions_stop nx ny it :
  0 <= it < MAX_ITERATIONS ->
  stationary (evaluate m nx ny) = true \/
  converged (e_fxy (evaluate m nx ny)) = true \/
  cap_reached (it + 1) = true ->
  forall nx' ny' it' shown, loop_body m nx ny it <> Again nx' ny' it' shown.
Proof.
  intros Hit Hexit nx' ny' it' shown.
  destruct (stationary (evaluate m nx ny)) eqn:Est.
  - rewrite (loop_body_break m _ _ _ Est). intros H. discriminate H.
  - assert (K : keep_going (e_fxy (evaluate m nx ny))
                  (Int.wrap_s32 (it + 1)) = false).
    { rewrite (wrap_succ it Hit).
      destruct Hexit as [H | [H | H]].
      - congruence.
      - exact (keep_going_converged _ _ (cost_unsigned m nx ny) H).
      - exact (keep_going_capped _ _ H). }
    destruct (Lcd.shown_fits (line_of m nx ny it)) eqn:Efit.
    + rewrite (loop_body_leave m _ _ _ Est Efit K). intros H. discriminate H.
    + rewrite (loop_body_smash m _ _ _ Est Efit). intros H. discriminate H.
Qed.


End RunFacts.

Section SolverClaims.

Lemma forallb_Forall {A} (f : A -> bool) (l : list A) :
  forallb f l = true -> Forall (fun a => f a = true) l.
Proof.
  intros H. apply Forall_forall. intros a Hin.
  exact (proj1 (forallb_forall f l) H a Hin).
Defined.

Lemma overrun_cycle_solved :
  solve 35 initial (cycle_measurement overrun_cycle) = Overran overrun_log.
Proof. vm_compute. reflexivity. Qed.

(** C6 does not hold of the code.  The cycle of [overrun_cycle] passes both
    checks on the first invocation after start-up, and the loop does not
    end by any of its three exit conditions: the position runs away, and
    in the 35th round (with [iters = 34]) the update reaches
    [(-167174605897728, -228384533643264)], for which line 206 formats a
    text of 44 characters into the 32 bytes of [buf].  From there on the
    behaviour of the handler is undefined; the 34 updates before it all
    fitted.  So it is not the case that every run of the solver leaves the
    loop within [MAX_ITERATIONS] iterations. *)
Theorem solver_overruns_buffer :
  passes overrun_cycle = true /\
  solve FUEL initial (cycle_measurement overrun_cycle) = Overran overrun_log /\
  positioningHandler FUEL overrun_cycle initial = BufferOverrun /\
  (forall k, solve (35 + k) initial (cycle_measurement overrun_cycle)
             = Overran overrun_log) /\
  length overrun_log = 35%nat /\
  nth_error overrun_log 34 = Some overrun_update /\
  p_iters overrun_update = 34 /\
  p_x overrun_update = F32.of_Z (-167174605897728) /\
  p_y overrun_update = F32.of_Z (-228384533643264) /\
  nth_error (Lcd.texts overrun_update) 1 = Some Example.overrun_text /\
  String.length Example.overrun_text = 44%nat /\
  Lcd.fits Example.overrun_text = false /\
  Forall (fun p => Lcd.shown_fits p = true) (firstn 34 overrun_log) /\
  ~ (forall st m, exists h lcd,
        solve FUEL st m = Finished h lcd /\ iters h <= MAX_ITERATIONS).
Proof.
  assert (Hs : solve FUEL initial (cycle_measurement overrun_cycle)
               = Overran overrun_log) by (vm_compute; reflexivity).
  split; [vm_compute; reflexivity |].
  split; [exact Hs |].
  split; [vm_compute; reflexivity |].
  split.
  { intros k.
    rewrite (solve_more_fuel (cycle_measurement overrun_cycle) 35 (35 + k)
               initial).
    - exact overrun_cycle_solved.
    - intros lcd E. rewrite overrun_cycle_solved in E. discriminate E.
    - lia. }
  split; [vm_compute; reflexivity |].
  split; [vm_compute; reflexivity |].
  split; [vm_compute; reflexivity |].
  split; [vm_compute; reflexivity |].
  split; [vm_compute; reflexivity |].
  split; [vm_compute; reflexivity |].
  split; [vm_compute; reflexivity |].
  split; [vm_compute; reflexivity |].
  split; [apply forallb_Forall; vm_compute; reflexivity |].
  intros Hclaim.
  destruct (Hclaim initial (cycle_measurement overrun_cycle))
    as (h & lcd & Hrun & _).
  rewrite Hs in Hrun. discriminate Hrun.
Qed.

(** X13: what is left of the iteration cap.  With fuel for
    [MAX_ITERATIONS] rounds the model never lacks fuel, and more fuel
    changes nothing.  Either the loop is left, after at most
    [MAX_ITERATIONS] (100) iterations, one update each, all of them within
    [buf]; every iteration that was followed by another had a nonzero
    squared gradient magnitude, a cost not below the convergence threshold
    and a count below the cap; and the loop ended at a position whose
    squared gradient magnitude is zero or after an update with the test of
    the [while] false.  Or one of the first [MAX_ITERATIONS] updates did
    not fit [buf], all updates before it having fitted.  In a round in
    which an exit condition holds the loop does not go round again. *)
Theorem solver_rounds_bounded fuel st m :
  (FUEL <= fuel)%nat ->
  solve fuel st m = solve FUEL st m /\
  ((exists h lcd,
      solve fuel st m = Finished h lcd /\
      0 <= iters h <= MAX_ITERATIONS /\
      Z.of_nat (length lcd) = iters h /\
      Forall (fun p => Lcd.shown_fits p = true) lcd /\
      (forall k p q,
          nth_error lcd k = Some p -> nth_error lcd (S k) = Some q ->
          is_zero (p_divisor p) = false /\
          converged (p_fxy p) = false /\
          cap_reached (p_iters p + 1) = false) /\
      (stationary (evaluate m (new_x h) (new_y h)) = true \/
       keep_going (new_fxy h) (iters h) = false))
   \/
   (exists before p,
      solve fuel st m = Overran (before ++ [p]) /\
      Z.of_nat (length before) < MAX_ITERATIONS /\
      Forall (fun q => Lcd.shown_fits q = true) before /\
      Lcd.shown_fits p = false)) /\
  (forall nx ny it,
      0 <= it < MAX_ITERATIONS ->
      stationary (evaluate m nx ny) = true \/
      converged (e_fxy (evaluate m nx ny)) = true \/
      cap_reached (it + 1) = true ->
      forall nx' ny' it' shown,
        loop_body m nx ny it <> Again nx' ny' it' shown).
Proof.
  intros Hfuel.
  split; [| split].
  - apply solve_more_fuel; [apply solve_fuelled; apply le_n | exact Hfuel].
  - destruct (solve_total m fuel st Hfuel)
      as [(h & lcd & Hrun & Hb & Hlen) | (lcd & Hrun & Hlen)].
    + left. exists h, lcd.
      destruct (solve_run m fuel st h lcd Hrun) as (Hr & Hfit & _ & _ & Hend & _).
      split; [exact Hrun | split; [exact Hb | split; [exact Hlen |]]].
      split; [exact Hfit | split; [| exact Hend]].
      intros k p q Hp Hq.
      destruct (run_of_nth m lcd _ _ 0 k p Hr Hp)
        as (cx & cy & E & Hs & _ & _ & Hn).
      destruct (Hn q Hq) as (_ & Hk & _).
      assert (Hu : unsigned (p_fxy p))
        by (rewrite E, line_of_fxy; apply cost_unsigned).
      destruct (keep_going_not_converged _ _ Hu Hk) as [Hc Hcap].
      split; [rewrite E, line_of_divisor; exact Hs |].
      split; [exact Hc |].
      rewrite E, line_of_iters. exact Hcap.
    + right.
      destruct (solve_overran m fuel st lcd Hrun)
        as (_ & before & p & Hl & Hfit & Hp & Hlen').
      exists before, p. subst lcd.
      split; [exact Hrun | split; [| split; [exact Hfit | exact Hp]]].
      rewrite length_app in Hlen'. cbn [length] in Hlen'. lia.
  - intros nx ny it Hit Hexit.
    apply (exit_conditions_stop m nx ny it Hit Hexit).
Qed.

Lemma solver_rounds_bounded_witness :
  solve (FUEL + 7) initial (cycle_measurement ceiling_cycle)
  = solve FUEL initial (cycle_measurement ceiling_cycle) /\
  solve (FUEL + 7) initial (cycle_measurement overrun_cycle)
  = solve FUEL initial (cycle_measurement overrun_cycle).
Proof.
  split.
  - refine (proj1 (solver_rounds_bounded (FUEL + 7) initial
                     (cycle_measurement ceiling_cycle) _)). lia.
  - refine (proj1 (solver_rounds_bounded (FUEL + 7) initial
                     (cycle_measurement overrun_cycle) _)). lia.
Defined.

End SolverClaims.

Section UpdateClaims.

Lemma is_zero_of_zero s : is_zero (S754_zero s) = true.
Proof. destruct s; reflexivity. Qed.

Lemma nonzero_divisor p :
  is_zero (p_divisor p) = false -> forall s, p_divisor p <> S754_zero s.
Proof.
  intros Hz s Hzero. rewrite Hzero, is_zero_of_zero in Hz. discriminate Hz.
Qed.

(** C7: the division by the squared gradient magnitude is guarded.  In a
    round whose squared gradient magnitude is exactly zero the loop stops
    with the position it entered the round with and without an update.  A
    round whose squared gradient magnitude is not zero makes the update of
    the specification, dividing by that magnitude, whatever the round
    leads to.  And the divisor of every update a run of the solver has
    made, however the run ends, is not zero. *)
Theorem division_guarded fuel st m :
  Forall (fun p => is_zero (p_divisor p) = false /\
                   forall s, p_divisor p <> S754_zero s)
         (updates_of (solve fuel st m)) /\
  (forall nx ny it,
      stationary (evaluate m nx ny) = true ->
      loop_body m nx ny it =
      Stop {| new_x := nx; new_y := ny;
              new_fxy := e_fxy (evaluate m nx ny); iters := it |} []) /\
  (forall nx ny it,
      stationary (evaluate m nx ny) = false ->
      exists p,
        spec_update m nx ny p /\
        (loop_body m nx ny it = Smash p \/
         loop_body m nx ny it
         = Again (p_x p) (p_y p) (Int.wrap_s32 (it + 1)) p \/
         loop_body m nx ny it
         = Stop {| new_x := p_x p; new_y := p_y p; new_fxy := p_fxy p;
                   iters := Int.wrap_s32 (it + 1) |} [p])).
Proof.
  split; [| split].
  - apply Forall_forall. intros p Hin.
    apply In_nth_error in Hin. destruct Hin as [k Hk].
    destruct (run_of_nth m _ _ _ 0 k p (solve_chain m fuel st) Hk)
      as (cx & cy & E & Hs & _).
    assert (Hz : is_zero (p_divisor p) = false)
      by (rewrite E, line_of_divisor; exact Hs).
    split; [exact Hz | exact (nonzero_divisor p Hz)].
  - intros nx ny it Hs. apply loop_body_break. exact Hs.
  - intros nx ny it Hs. exists (line_of m nx ny it).
    split; [apply line_of_spec_update; exact Hs |].
    destruct (Lcd.shown_fits (line_of m nx ny it)) eqn:Efit.
    + destruct (keep_going (e_fxy (evaluate m nx ny))
                  (Int.wrap_s32 (it + 1))) eqn:Ek.
      * right. left. apply loop_body_again; assumption.
      * right. right. rewrite (loop_body_leave m _ _ _ Hs Efit Ek).
        rewrite line_of_fxy. reflexivity.
    + left. apply loop_body_smash; assumption.
Qed.


End UpdateClaims.

Section UpdateWitnesses.


Lemma division_guarded_witness :
  Forall (fun p => is_zero (p_divisor p) = false /\
                   forall s, p_divisor p <> S754_zero s)
         (updates_of (solve FUEL elsewhere
                        (cycle_measurement near_centre_cycle))) /\
  loop_body (cycle_measurement centred_cycle) F32.zero F32.zero 0 =
  Stop {| new_x := F32.zero; new_y := F32.zero;
          new_fxy := e_fxy (evaluate (cycle_measurement centred_cycle)
                              F32.zero F32.zero);
          iters := 0 |} [].
Proof.
  split.
  - exact (proj1 (division_guarded FUEL elsewhere
                    (cycle_measurement near_centre_cycle))).
  - apply (proj1 (proj2 (division_guarded FUEL initial
                           (cycle_measurement centred_cycle)))).
    vm_compute. reflexivity.
Defined.


(** The seed matters: the same measurement solved from the published
    position [elsewhere] and from the origin ends at different positions
    after a different number of iterations. *)
Lemma seed_is_published_state :
  solve FUEL elsewhere (cycle_measurement near_centre_cycle)
  = Finished (fst elsewhere_run) (snd elsewhere_run) /\
  iters (fst elsewhere_run) = 73 /\
  iters (fst near_centre_run) = 1 /\
  nth_error (snd elsewhere_run) 0
  = Some (line_of (cycle_measurement near_centre_cycle)
                  (x elsewhere) (y elsewhere) 0).
Proof.
  split; [vm_compute; reflexivity |].
  split; [vm_compute; reflexivity |].
  split; vm_compute; reflexivity.
Qed.

End UpdateWitnesses.

(** ** The first round and the acceptance decision *)

Section AcceptanceClaims.

Lemma acceptable_unsigned h :
  unsigned (new_fxy h) ->
  acceptable h = F64.ltb (to_double (new_fxy h)) MAX_ERROR.
Proof.
  intros Hf. unfold acceptable. rewrite (fabsf_unsigned _ Hf). reflexivity.
Qed.

Lemma publish_accept st h :
  acceptable h = true ->
  publish st h =
  {| x := new_x h; y := new_y h; fxy := new_fxy h; new_data := 1 |}.
Proof. intros H. unfold publish. rewrite H. reflexivity. Qed.

Lemma publish_discard st h : acceptable h = false -> publish st h = st.
Proof. intros H. unfold publish. rewrite H. reflexivity. Qed.

Lemma wrap_one : Int.wrap_s32 (0 + 1) = 1.
Proof. reflexivity. Qed.

(** C10: on a cycle that passes the validity and plausibility checks the
    loop body runs at least once.  The cost is computed at the published
    position from this cycle's measurements (it is the specification's
    metric there).  If the squared gradient magnitude there is exactly
    zero the position is left as it is and the acceptance decision is
    taken on it.  Otherwise the position is moved by one update of the
    specification before anything is decided: the first update of the run
    is the update of the published position; an acceptance decision, if
    the loop is left, comes after at least one iteration; and when the
    cost at the seed is already at or below the convergence threshold and
    the texts of the update fit [buf], the decision is taken on exactly
    that one update. *)
Theorem loop_body_runs_once fuel cap st :
  passes cap = true ->
  (stationary (evaluate (cycle_measurement cap) (x st) (y st)) = true ->
   positioningHandler (S fuel) cap st =
   Returned
     (publish st
        {| new_x := x st; new_y := y st;
           new_fxy := spec_metric (cycle_measurement cap) (x st) (y st);
           iters := 0 |})) /\
  (stationary (evaluate (cycle_measurement cap) (x st) (y st)) = false ->
   exists p rest,
     updates_of (solve (S fuel) st (cycle_measurement cap)) = p :: rest /\
     spec_update (cycle_measurement cap) (x st) (y st) p /\
     p_iters p = 0 /\
     (forall h lcd,
         solve (S fuel) st (cycle_measurement cap) = Finished h lcd ->
         1 <= iters h /\
         positioningHandler (S fuel) cap st = Returned (publish st h)) /\
     (F64.leb (to_double (p_fxy p)) ERROR_THRESHOLD = true ->
      Lcd.shown_fits p = true ->
      positioningHandler (S fuel) cap st =
      Returned
        (publish st
           {| new_x := p_x p; new_y := p_y p; new_fxy := p_fxy p;
              iters := 1 |}))).
Proof.
  intros Hp.
  split.
  - intros Hs.
    rewrite (handler_solves cap (S fuel) st Hp).
    rewrite solve_step, (loop_body_break _ _ _ 0 Hs), evaluate_metric.
    reflexivity.
  - intros Hs.
    destruct (first_update (cycle_measurement cap) fuel st Hs) as (rest & E).
    exists (line_of (cycle_measurement cap) (x st) (y st) 0), rest.
    split; [exact E |].
    split; [apply line_of_spec_update; exact Hs |].
    split; [apply line_of_iters |].
    split.
    + intros h lcd Hrun.
      split; [| exact (handler_finished cap (S fuel) st h lcd Hp Hrun)].
      destruct (solve_run _ (S fuel) st h lcd Hrun) as (_ & _ & _ & Hlen & _).
      rewrite Hrun in E. cbn [updates_of] in E.
      rewrite Hlen, E. cbn [length]. lia.
    + intros Hle Hfit. rewrite line_of_fxy in Hle.
      rewrite (handler_solves cap (S fuel) st Hp).
      rewrite solve_step.
      rewrite (loop_body_leave (cycle_measurement cap) (x st) (y st) 0 Hs Hfit
                 (keep_going_at_threshold _ (Int.wrap_s32 (0 + 1))
                    (cost_unsigned (cycle_measurement cap) (x st) (y st))
                    Hle)).
      rewrite wrap_one, line_of_fxy. reflexivity.
Qed.

Lemma loop_body_runs_once_witness :
  positioningHandler (S 0) centred_cycle initial =
  Returned {| x := F32.zero; y := F32.zero; fxy := F32.zero; new_data := 1 |} /\
  exists p rest,
    updates_of (solve (S 0) initial (cycle_measurement near_centre_cycle))
    = p :: rest /\
    spec_update (cycle_measurement near_centre_cycle)
                (x initial) (y initial) p.
Proof.
  split.
  - destruct (loop_body_runs_once 0 centred_cycle initial)
      as (H & _); [vm_compute; reflexivity |].
    rewrite H; vm_compute; reflexivity.
  - destruct (loop_body_runs_once 0 near_centre_cycle initial)
      as (_ & H); [vm_compute; reflexivity |].
    destruct H as (p & rest & E & Hu & _); [vm_compute; reflexivity |].
    exists p, rest. split; [exact E | exact Hu].
Defined.

(** On the cycle of [near_centre_cycle] the seed's cost is below the
    convergence threshold, and yet the published position is not the
    seed: it has been moved by the one update. *)
Lemma first_round_moves :
  converged (spec_metric (cycle_measurement near_centre_cycle)
               (x initial) (y initial)) = true /\
  positioningHandler (S 0) near_centre_cycle initial
  = Returned near_centre_state /\
  (x near_centre_state, y near_centre_state) <> (x initial, y initial).
Proof.
  split; [vm_compute; reflexivity |].
  split; [vm_compute; reflexivity |].
  vm_compute. intros H. discriminate H.
Qed.

End AcceptanceClaims.

Section CeilingClaims.

(** Against C1 as stated.  On the first cycle after start-up with the
    captures of [ceiling_cycle], the loop is left at the iteration cap with
    a final cost of exactly 0.5, the acceptance ceiling.  The cost is at or
    below the ceiling, and yet nothing is published: the state stays the
    initial one and the flag stays clear.  So "at or below the ceiling
    implies published" does not hold of the handler. *)
Lemma acceptance_at_ceiling_not_published :
  passes ceiling_cycle = true /\
  solve FUEL initial (cycle_measurement ceiling_cycle)
  = Finished ceiling_result (snd ceiling_run) /\
  new_fxy ceiling_result = to_float MAX_ERROR /\
  iters ceiling_result = MAX_ITERATIONS /\
  F64.leb (to_double (new_fxy ceiling_result)) MAX_ERROR = true /\
  positioningHandler FUEL ceiling_cycle initial = Returned initial /\
  new_data initial = 0 /\
  ~ (forall fuel cap st h lcd,
        passes cap = true ->
        solve fuel st (cycle_measurement cap) = Finished h lcd ->
        (F64.gtb (to_double (new_fxy h)) MAX_ERROR = true ->
         positioningHandler fuel cap st = Returned st) /\
        (F64.leb (to_double (new_fxy h)) MAX_ERROR = true ->
         positioningHandler fuel cap st =
         Returned {| x := new_x h; y := new_y h; fxy := new_fxy h;
                     new_data := 1 |})).
Proof.
  assert (Hp : passes ceiling_cycle = true) by (vm_compute; reflexivity).
  assert (Hs : solve FUEL initial (cycle_measurement ceiling_cycle)
               = Finished ceiling_result (snd ceiling_run))
    by (vm_compute; reflexivity).
  assert (Hle : F64.leb (to_double (new_fxy ceiling_result)) MAX_ERROR = true)
    by (vm_compute; reflexivity).
  assert (Hh : positioningHandler FUEL ceiling_cycle initial = Returned initial)
    by (vm_compute; reflexivity).
  split; [exact Hp |]. split; [exact Hs |].
  split; [vm_compute; reflexivity |].
  split; [vm_compute; reflexivity |].
  split; [exact Hle |]. split; [exact Hh |]. split; [reflexivity |].
  intros Hclaim.
  destruct (Hclaim FUEL ceiling_cycle initial ceiling_result
              (snd ceiling_run) Hp Hs) as [_ Hpub].
  specialize (Hpub Hle). rewrite Hh in Hpub.
  vm_compute in Hpub. discriminate Hpub.
Qed.

(** C1 (amended): after the solver loop has been left with final cost [F],
    the handler returns, and the published state is unchanged if [F] is at
    or above the acceptance ceiling [MAX_ERROR] (or is not below it for
    being a NaN); if [F] is strictly below the ceiling the published state
    becomes the solver's result, with the fresh-data flag set, so that
    [position_data_available] then reports fresh data once and not a
    second time. *)
Theorem acceptance_below_ceiling fuel cap st h lcd :
  passes cap = true ->
  solve fuel st (cycle_measurement cap) = Finished h lcd ->
  (F64.geb (to_double (new_fxy h)) MAX_ERROR = true ->
   positioningHandler fuel cap st = Returned st) /\
  (F64.ltb (to_double (new_fxy h)) MAX_ERROR = false ->
   positioningHandler fuel cap st = Returned st) /\
  (F64.ltb (to_double (new_fxy h)) MAX_ERROR = true ->
   positioningHandler fuel cap st =
   Returned {| x := new_x h; y := new_y h; fxy := new_fxy h; new_data := 1 |} /\
   fst (position_data_available
          {| x := new_x h; y := new_y h; fxy := new_fxy h; new_data := 1 |})
   = 1 /\
   fst (position_data_available
          (snd (position_data_available
                  {| x := new_x h; y := new_y h; fxy := new_fxy h;
                     new_data := 1 |})))
   = 0).
Proof.
  intros Hp Hrun.
  destruct (solve_run _ fuel st h lcd Hrun) as (_ & _ & _ & _ & _ & Hu).
  pose proof (acceptable_unsigned h Hu) as Ha.
  rewrite (handler_finished cap fuel st h lcd Hp Hrun).
  split; [| split].
  - intros Hge. rewrite (geb_not_ltb _ _ Hge) in Ha.
    rewrite (publish_discard st h Ha). reflexivity.
  - intros Hnlt. rewrite Hnlt in Ha.
    rewrite (publish_discard st h Ha). reflexivity.
  - intros Hlt. rewrite Hlt in Ha.
    rewrite (publish_accept st h Ha).
    split; [reflexivity | split; reflexivity].
Qed.

Lemma acceptance_below_ceiling_witness :
  positioningHandler FUEL near_centre_cycle initial =
  Returned {| x := new_x (fst near_centre_run);
              y := new_y (fst near_centre_run);
              fxy := new_fxy (fst near_centre_run);
              new_data := 1 |} /\
  positioningHandler FUEL ceiling_cycle initial = Returned initial.
Proof.
  split.
  - refine (proj1 (proj2 (proj2
             (acceptance_below_ceiling FUEL near_centre_cycle initial
                (fst near_centre_run) (snd near_centre_run) _ _)) _)).
    + vm_compute. reflexivity.
    + vm_compute. reflexivity.
    + vm_compute. reflexivity.
  - refine (proj1
             (acceptance_below_ceiling FUEL ceiling_cycle initial
                (fst ceiling_run) (snd ceiling_run) _ _) _).
    + vm_compute. reflexivity.
    + vm_compute. reflexivity.
    + vm_compute. reflexivity.
Defined.

(** The cycle of [near_centre_cycle] is published: its cost is below the
    ceiling. *)
Lemma near_centre_published :
  F64.ltb (to_double (new_fxy (fst near_centre_run))) MAX_ERROR = true /\
  positioningHandler FUEL near_centre_cycle initial =
  Returned {| x := new_x (fst near_centre_run);
              y := new_y (fst near_centre_run);
              fxy := new_fxy (fst near_centre_run);
              new_data := 1 |}.
Proof. split; vm_compute; reflexivity. Qed.

End CeilingClaims.

(** * Further properties of the code *)

(** ** Conversion of a [float] to [double] *)

Section ConversionFacts.

Lemma digits2_pos_shift m k :
  digits2_pos (Pos.iter xO m k) = (digits2_pos m + k)%positive.
Proof.
  induction k as [| k IH] using Pos.peano_ind.
  - cbn. lia.
  - rewrite Pos.iter_succ. cbn [digits2_pos]. rewrite IH. lia.
Qed.

Lemma shr_fexp_exact prec emax m e :
  fexp prec emax (Zpos (digits2_pos m) + e) = e ->
  shr_fexp prec emax (Zpos m) e loc_Exact
  = ({| shr_m := Zpos m; shr_r := false; shr_s := false |}, e).
Proof.
  intros H. unfold shr_fexp. cbn [Zdigits2]. rewrite H, Z.sub_diag.
  reflexivity.
Qed.

(** Rounding a mantissa that already fits only aligns it. *)
Lemma binary_round_exact prec emax s m e :
  fexp prec emax (Zpos (digits2_pos m) + e) <= e ->
  exists mz ez,
    shl_align m e (fexp prec emax (Zpos (digits2_pos m) + e)) = (mz, ez) /\
    ez <= e /\
    binary_round prec emax s m e =
    if ez <=? emax - prec then S754_finite s mz ez else S754_infinity s.
Proof.
  intros Hle. unfold binary_round.
  set (f := fexp prec emax (Zpos (digits2_pos m) + e)) in *.
  assert (Hal : exists mz ez, shl_align m e f = (mz, ez) /\ ez <= e /\
                  fexp prec emax (Zpos (digits2_pos mz) + ez) = ez).
  { unfold shl_align. destruct (f - e) as [| d | d] eqn:Ed.
    - exists m, e. split; [reflexivity | split; [lia |]]. fold f. lia.
    - lia.
    - exists (Pos.iter xO m d), f. split; [reflexivity | split; [lia |]].
      rewrite digits2_pos_shift.
      replace (Zpos (digits2_pos m + d) + f) with (Zpos (digits2_pos m) + e)
        by lia.
      reflexivity. }
  destruct Hal as (mz & ez & Hal & Hez & Hfix).
  exists mz, ez. rewrite Hal. split; [reflexivity | split; [exact Hez |]].
  unfold binary_round_aux.
  rewrite (shr_fexp_exact prec emax mz ez Hfix).
  cbn [shr_m loc_of_shr_record round_nearest_even].
  rewrite (shr_fexp_exact prec emax mz ez Hfix).
  cbn [shr_m]. reflexivity.
Qed.

(** A finite binary32 converts to a finite binary64 of the same sign, with
    a mantissa and exponent that do not depend on the sign. *)
Lemma to_double_finite s m e :
  is_binary32 (S754_finite s m e) ->
  exists mz ez,
    to_double (S754_finite s m e) = S754_finite s mz ez /\
    to_double (S754_finite (negb s) m e) = S754_finite (negb s) mz ez.
Proof.
  unfold is_binary32. cbn [valid_binary]. unfold bounded, canonical_mantissa.
  rewrite andb_true_iff, Z.eqb_eq, Z.leb_le. intros [Hc Hb].
  assert (Hle : fexp F64.prec F64.emax (Zpos (digits2_pos m) + e) <= e).
  { revert Hc.
    unfold fexp, emin, F32.prec, F32.emax, F64.prec, F64.emax. lia. }
  destruct (binary_round_exact F64.prec F64.emax s m e Hle)
    as (mz & ez & Hal & Hez & Hr).
  destruct (binary_round_exact F64.prec F64.emax (negb s) m e Hle)
    as (mz' & ez' & Hal' & _ & Hr').
  rewrite Hal in Hal'. injection Hal' as <- <-.
  assert (Hfin : (ez <=? F64.emax - F64.prec) = true).
  { apply Z.leb_le. revert Hb.
    unfold F32.prec, F32.emax, F64.prec, F64.emax. lia. }
  rewrite Hfin in Hr, Hr'.
  exists mz, ez. split.
  - unfold to_double.
    destruct s; cbn [cond_Zopp Z.opp binary_normalize]; exact Hr.
  - unfold to_double.
    destruct s; cbn [negb cond_Zopp Z.opp binary_normalize] in *; exact Hr'.
Qed.

Lemma to_double_not_nan f : f <> S754_nan -> to_double f <> S754_nan.
Proof.
  destruct f as [s | s | | s m e]; intros Hn; try discriminate.
  - exfalso. apply Hn. reflexivity.
  - intros E. pose proof (to_double_sign s (S754_finite s m e) eq_refl) as H.
    rewrite E in H. exact H.
Qed.

Lemma SFcompare_opp a b : SFcompare (SFopp a) (SFopp b) = SFcompare b a.
Proof.
  destruct a as [[] | [] | | [] ma ea], b as [[] | [] | | [] mb eb];
    cbn [SFopp negb SFcompare]; try reflexivity;
    rewrite (Z.compare_antisym ea eb);
    destruct (ea ?= eb); cbn [CompOpp]; try reflexivity; f_equal;
    first [ exact (Pos.compare_cont_antisym mb ma Eq)
          | exact (Pos.compare_cont_antisym ma mb Eq)
          | symmetry; exact (Pos.compare_cont_antisym mb ma Eq)
          | symmetry; exact (Pos.compare_cont_antisym ma mb Eq) ].
Qed.

Lemma threshold_value :
  ERROR_THRESHOLD = S754_finite false 5764607523034235 (-59).
Proof. vm_compute. reflexivity. Qed.

Lemma ceiling_value : MAX_ERROR = S754_finite false 4503599627370496 (-53).
Proof. vm_compute. reflexivity. Qed.

Lemma plausibility_bound_value :
  F64.add X Y = S754_finite false 8057221208342528 (-47).
Proof. vm_compute. reflexivity. Qed.

(** A number that is not above the convergence threshold is below the
    acceptance ceiling. *)
Lemma not_above_threshold_below_ceiling a :
  a <> S754_nan ->
  F64.gtb a ERROR_THRESHOLD = false -> F64.ltb a MAX_ERROR = true.
Proof.
  rewrite threshold_value, ceiling_value.
  unfold F64.gtb, F64.ltb, SFltb.
  destruct a as [s | [] | | [] m e]; cbn [SFcompare]; intros Hn H;
    try reflexivity; try discriminate H; try (exfalso; apply Hn; reflexivity).
  destruct (Z.compare_spec (-59) e) as [He | He | He].
  - subst e. reflexivity.
  - discriminate H.
  - assert (E : (e ?= -53) = Lt) by (apply Z.compare_lt_iff; lia).
    rewrite E. reflexivity.
Qed.

Lemma below_threshold_below_ceiling a :
  F64.ltb a ERROR_THRESHOLD = true -> F64.ltb a MAX_ERROR = true.
Proof.
  intros H. apply not_above_threshold_below_ceiling.
  - intros ->. discriminate H.
  - apply ltb_not_gtb. exact H.
Qed.

End ConversionFacts.

(** ** The file's [fabsf] and the tests that use it *)

Section MagnitudeFacts.

(** X1: on every binary32 value the file's [fabsf] is the magnitude, with
    a NaN for a NaN, except that it returns negative zero as it is (the
    test [num >= 0.0] holds for it).  No comparison can tell the
    difference, and applying it twice is the same as applying it once. *)
Theorem fabsf_magnitude f :
  is_binary32 f ->
  fabsf f = match f with S754_zero _ => f | _ => SFabs f end /\
  (forall g, SFcompare (to_double (fabsf f)) g
             = SFcompare (to_double (SFabs f)) g) /\
  fabsf (fabsf f) = fabsf f.
Proof.
  intros Hv.
  assert (E : fabsf f = match f with S754_zero _ => f | _ => SFabs f end).
  { destruct f as [s | s | | s m e].
    - destruct s; reflexivity.
    - destruct s; reflexivity.
    - reflexivity.
    - destruct (to_double_finite s m e Hv) as (mz & ez & Hd & _).
      unfold fabsf. rewrite Hd. destruct s; reflexivity. }
  split; [exact E | split].
  - intros g. rewrite E. destruct f as [s | s | | s m e]; reflexivity.
  - rewrite E. destruct f as [s | s | | s m e].
    + destruct s; reflexivity.
    + reflexivity.
    + reflexivity.
    + cbn [SFabs].
      destruct (to_double_finite false m e) as (mz & ez & Hd & _).
      { exact Hv. }
      unfold fabsf. rewrite Hd. reflexivity.
Qed.

Lemma fabsf_magnitude_witness :
  fabsf (S754_finite true 12582912 (-22)) = S754_finite false 12582912 (-22) /\
  fabsf (S754_zero true) = S754_zero true.
Proof.
  split.
  - exact (proj1 (fabsf_magnitude (S754_finite true 12582912 (-22))
                    (eq_refl true))).
  - exact (proj1 (fabsf_magnitude (S754_zero true) (eq_refl true))).
Defined.

(** X2: the plausibility test of line 146 is two-sided: a difference is
    thrown away exactly when it is above [X + Y] or below [-(X + Y)]; a
    NaN is not. *)
Theorem implausible_two_sided d :
  is_binary32 d ->
  implausible d =
  F64.gtb (to_double d) (F64.add X Y)
  || F64.ltb (to_double d) (F64.opp (F64.add X Y)).
Proof.
  intros Hv. unfold implausible.
  destruct (fabsf_magnitude d Hv) as (E & _ & _). rewrite E.
  rewrite plausibility_bound_value.
  destruct d as [s | s | | s m e].
  - destruct s; reflexivity.
  - destruct s; reflexivity.
  - reflexivity.
  - destruct (to_double_finite s m e Hv) as (mz & ez & Hd & Hd').
    destruct s.
    + cbn [SFabs negb] in *. rewrite Hd, Hd'.
      unfold F64.gtb, F64.ltb, SFltb, F64.opp.
      rewrite <- (SFcompare_opp (S754_finite false mz ez)
                    (S754_finite false 8057221208342528 (-47))).
      cbn [SFopp negb].
      destruct (SFcompare (S754_finite true mz ez) _) as [[] |]; reflexivity.
    + cbn [SFabs negb] in *. rewrite Hd.
      unfold F64.gtb, F64.ltb, SFltb, F64.opp. cbn [SFopp negb].
      cbn [SFcompare]. rewrite orb_false_r. reflexivity.
Qed.

Lemma implausible_two_sided_witness :
  implausible (S754_finite true 15728640 (-18)) =
  F64.gtb (to_double (S754_finite true 15728640 (-18))) (F64.add X Y)
  || F64.ltb (to_double (S754_finite true 15728640 (-18)))
             (F64.opp (F64.add X Y)).
Proof.
  exact (implausible_two_sided (S754_finite true 15728640 (-18))
           (eq_refl true)).
Defined.

Lemma acceptable_cost nx ny f it :
  unsigned f ->
  acceptable {| new_x := nx; new_y := ny; new_fxy := f; iters := it |}
  = F64.ltb (to_double f) MAX_ERROR.
Proof.
  intros Hf. unfold acceptable. cbn [new_fxy].
  rewrite (fabsf_unsigned f Hf). reflexivity.
Qed.

(** X3: the metric is a sum of squares, so it is never negative (it is a
    NaN or has a clear sign bit) whatever the position and the
    measurements, and the [fabsf] around it in the tests of lines 216 and
    218 changes nothing: the loop goes on exactly when [new_fxy] is above
    [ERROR_THRESHOLD] with iterations left, and a result is published
    exactly when [new_fxy] is below [MAX_ERROR]. *)
Theorem cost_never_negative m nx ny it :
  unsigned (e_fxy (evaluate m nx ny)) /\
  fabsf (e_fxy (evaluate m nx ny)) = e_fxy (evaluate m nx ny) /\
  keep_going (e_fxy (evaluate m nx ny)) it
  = F64.gtb (to_double (e_fxy (evaluate m nx ny))) ERROR_THRESHOLD
    && (it <? MAX_ITERATIONS) /\
  acceptable {| new_x := nx; new_y := ny;
                new_fxy := e_fxy (evaluate m nx ny); iters := it |}
  = F64.ltb (to_double (e_fxy (evaluate m nx ny))) MAX_ERROR.
Proof.
  pose proof (cost_unsigned m nx ny) as Hu.
  split; [exact Hu | split; [exact (fabsf_unsigned _ Hu) | split]].
  - unfold keep_going. rewrite (fabsf_unsigned _ Hu). reflexivity.
  - exact (acceptable_cost nx ny _ it Hu).
Qed.

End MagnitudeFacts.

(** ** What the handler leaves behind *)

Section StateFacts.

Lemma returned_inv st st' : Returned st = Returned st' -> st' = st.
Proof. intros H. inversion H. reflexivity. Qed.

Lemma handler_result fuel cap st st' :
  positioningHandler fuel cap st = Returned st' ->
  st' = st \/
  exists h lcd,
    passes cap = true /\
    solve fuel st (cycle_measurement cap) = Finished h lcd /\
    acceptable h = true /\
    st' = {| x := new_x h; y := new_y h; fxy := new_fxy h; new_data := 1 |}.
Proof.
  intros H. destruct (passes cap) eqn:P.
  - rewrite (handler_solves cap fuel st P) in H.
    destruct (solve fuel st (cycle_measurement cap)) as [h lcd | lcd | lcd]
      eqn:Hs; [| discriminate H | discriminate H].
    apply returned_inv in H.
    destruct (acceptable h) eqn:A.
    + right. exists h, lcd. rewrite (publish_accept st h A) in H.
      split; [reflexivity | split; [reflexivity | split; [exact A |]]].
      exact H.
    + left. rewrite (publish_discard st h A) in H. exact H.
  - rewrite (handler_rejects cap fuel st P) in H. left.
    apply returned_inv in H. exact H.
Qed.

(** The iteration cap is fuel enough for the model of the handler. *)
Lemma handler_fuel fuel cap st :
  (FUEL <= fuel)%nat ->
  positioningHandler fuel cap st <> NoFuel /\
  positioningHandler fuel cap st = positioningHandler FUEL cap st.
Proof.
  intros Hfuel. destruct (passes cap) eqn:P.
  - rewrite !(handler_solves cap _ st P).
    rewrite (solve_more_fuel (cycle_measurement cap) FUEL fuel st
               (solve_fuelled _ FUEL st (le_n FUEL)) Hfuel).
    split; [| reflexivity].
    destruct (solve_total (cycle_measurement cap) FUEL st (le_n FUEL))
      as [(h & lcd & Hrun & _) | (lcd & Hrun & _)];
      rewrite Hrun; intros H; discriminate H.
  - rewrite !(handler_rejects cap _ st P).
    split; [intros H; discriminate H | reflexivity].
Qed.

Lemma accepted_cost h :
  unsigned (new_fxy h) -> acceptable h = true ->
  signed_as false (new_fxy h) /\
  F64.ltb (to_double (new_fxy h)) MAX_ERROR = true.
Proof.
  intros Hu Ha. rewrite (acceptable_unsigned h Hu) in Ha.
  split; [| exact Ha].
  destruct (new_fxy h) as [s | s | | s m e]; try exact Hu.
  discriminate Ha.
Qed.

Lemma nonnegative_geb f :
  signed_as false f -> F64.geb (to_double f) F64.zero = true.
Proof.
  intros Hs. pose proof (to_double_sign false f Hs) as H.
  unfold F64.geb, SFleb, F64.zero.
  destruct (to_double f) as [s | s | | s m e]; cbn in H; subst;
    try reflexivity; contradiction.
Qed.

(** X4: in every state the program can reach by invocations of the
    handler that return and by calls of the accessor, the published error
    is a number (never a NaN) with [0 <= fxy < MAX_ERROR], and the new-data
    flag is 0 or 1. *)
Theorem published_error_range st :
  reachable st ->
  (new_data st = 0 \/ new_data st = 1) /\
  signed_as false (fxy st) /\
  F64.geb (to_double (fxy st)) F64.zero = true /\
  F64.ltb (to_double (fxy st)) MAX_ERROR = true.
Proof.
  induction 1 as [| st fuel cap st' Hr IH Hh | st Hr IH].
  - split; [left; reflexivity |].
    split; [reflexivity | split; vm_compute; reflexivity].
  - destruct (handler_result fuel cap st st' Hh)
      as [-> | (h & lcd & _ & Hs & Ha & ->)]; [exact IH |].
    destruct (solve_run _ fuel st h lcd Hs) as (_ & _ & _ & _ & _ & Hu).
    destruct (accepted_cost h Hu Ha) as [Hsg Hlt].
    cbn [new_data fxy].
    split; [right; reflexivity | split; [exact Hsg | split; [| exact Hlt]]].
    apply nonnegative_geb. exact Hsg.
  - unfold position_data_available. cbn [snd new_data fxy].
    destruct IH as (_ & H). split; [left; reflexivity | exact H].
Qed.

Lemma near_centre_state_reachable : reachable near_centre_state.
Proof.
  apply (reach_cycle initial FUEL near_centre_cycle near_centre_state).
  - exact reach_initial.
  - vm_compute. reflexivity.
Defined.

Lemma published_error_range_witness :
  (new_data near_centre_state = 0 \/ new_data near_centre_state = 1) /\
  signed_as false (fxy near_centre_state) /\
  F64.geb (to_double (fxy near_centre_state)) F64.zero = true /\
  F64.ltb (to_double (fxy near_centre_state)) MAX_ERROR = true.
Proof.
  exact (published_error_range near_centre_state near_centre_state_reachable).
Defined.

(** X5: the handler never changes the published position or error
    without raising the flag.  A cycle that fails a check makes it return
    with the state as it was.  Whenever it returns, either the state is
    exactly as before, or the cycle passed both checks and the flag is 1;
    a flag that was raised is still raised; and if an accessor returns a
    value it did not return before the cycle, [position_data_available]
    then returns 1.  The iteration cap is fuel enough: with it the model
    never lacks fuel, and more fuel changes no outcome. *)
Theorem handler_signals_every_change fuel cap st :
  (passes cap = false -> positioningHandler fuel cap st = Returned st) /\
  (forall st',
      positioningHandler fuel cap st = Returned st' ->
      (st' = st \/ (new_data st' = 1 /\ passes cap = true)) /\
      (new_data st = 1 -> new_data st' = 1) /\
      ((position_x st', position_y st', error st')
       <> (position_x st, position_y st, error st) ->
       fst (position_data_available st') = 1)) /\
  ((FUEL <= fuel)%nat ->
   positioningHandler fuel cap st <> NoFuel /\
   positioningHandler fuel cap st = positioningHandler FUEL cap st).
Proof.
  split; [| split].
  - intros P. apply handler_rejects. exact P.
  - intros st' Hh.
    destruct (handler_result fuel cap st st' Hh)
      as [-> | (h & lcd & P & _ & _ & ->)].
    + split; [left; reflexivity | split; [tauto |]].
      intros Hne. exfalso. apply Hne. reflexivity.
    + cbn [new_data]. split; [right; split; [reflexivity | exact P] |].
      split; reflexivity.
  - intros Hfuel. apply handler_fuel. exact Hfuel.
Qed.

Lemma handler_signals_every_change_witness :
  (near_centre_state = initial \/
   (new_data near_centre_state = 1 /\ passes near_centre_cycle = true)) /\
  positioningHandler FUEL
    (captured 4294967295 0 4294765566 4294665851) near_centre_state
  = Returned near_centre_state /\
  positioningHandler (FUEL + 1) overrun_cycle initial
  = positioningHandler FUEL overrun_cycle initial.
Proof.
  split; [| split].
  - refine (proj1 (proj1 (proj2 (handler_signals_every_change FUEL
                                   near_centre_cycle initial))
                     near_centre_state _)).
    vm_compute. reflexivity.
  - refine (proj1 (handler_signals_every_change FUEL
                     (captured 4294967295 0 4294765566 4294665851)
                     near_centre_state) _).
    vm_compute. reflexivity.
  - refine (proj2 (proj2 (proj2 (handler_signals_every_change (FUEL + 1)
                                   overrun_cycle initial)) _)).
    lia.
Defined.

(** X6: the convergence threshold is tighter than the acceptance ceiling.
    When the loop was left with a cost below [ERROR_THRESHOLD], the cycle
    is published; and a cycle that passed both checks and whose loop was
    left stays unpublished only if the solver stopped at a stationary
    point, or ran into the iteration cap, or its cost is a NaN. *)
Theorem converged_cycle_published fuel cap st h lcd :
  passes cap = true ->
  solve fuel st (cycle_measurement cap) = Finished h lcd ->
  (converged (new_fxy h) = true ->
   positioningHandler fuel cap st =
   Returned {| x := new_x h; y := new_y h; fxy := new_fxy h;
               new_data := 1 |}) /\
  (acceptable h = false ->
   positioningHandler fuel cap st = Returned st /\
   (stationary (evaluate (cycle_measurement cap) (new_x h) (new_y h)) = true
    \/ iters h = MAX_ITERATIONS
    \/ new_fxy h = S754_nan)).
Proof.
  intros P Hrun.
  destruct (solve_run _ fuel st h lcd Hrun) as (_ & _ & _ & _ & Hend & Hu).
  pose proof (solve_bounded _ fuel st h lcd Hrun) as Hb.
  pose proof (acceptable_unsigned h Hu) as Ha.
  rewrite (handler_finished cap fuel st h lcd P Hrun).
  split.
  - intros Hc. unfold converged in Hc.
    rewrite (below_threshold_below_ceiling _ Hc) in Ha.
    rewrite (publish_accept st h Ha). reflexivity.
  - intros Hna. rewrite (publish_discard st h Hna).
    split; [reflexivity |].
    destruct Hend as [Hs | Hk]; [left; exact Hs | right].
    unfold keep_going in Hk. rewrite (fabsf_unsigned _ Hu) in Hk.
    apply andb_false_iff in Hk. destruct Hk as [Hg | Hi].
    + right. rewrite Hna in Ha.
      assert (Hcase : forall f, f <> S754_nan ->
                F64.gtb (to_double f) ERROR_THRESHOLD = false ->
                false = F64.ltb (to_double f) MAX_ERROR -> False).
      { intros f Hn Hgt Hlt.
        rewrite (not_above_threshold_below_ceiling _
                   (to_double_not_nan f Hn) Hgt) in Hlt.
        discriminate Hlt. }
      destruct (new_fxy h) as [s | s | | s m e]; [| | reflexivity |];
        exfalso; refine (Hcase _ _ Hg Ha); discriminate.
    + left. apply Z.ltb_ge in Hi. lia.
Qed.

Lemma converged_cycle_published_witness :
  positioningHandler FUEL near_centre_cycle initial =
  Returned {| x := new_x (fst near_centre_run);
              y := new_y (fst near_centre_run);
              fxy := new_fxy (fst near_centre_run);
              new_data := 1 |} /\
  (stationary (evaluate (cycle_measurement ceiling_cycle)
                 (new_x (fst ceiling_run)) (new_y (fst ceiling_run))) = true
   \/ iters (fst ceiling_run) = MAX_ITERATIONS
   \/ new_fxy (fst ceiling_run) = S754_nan).
Proof.
  split.
  - refine (proj1 (converged_cycle_published FUEL near_centre_cycle initial
                     (fst near_centre_run) (snd near_centre_run) _ _) _).
    + vm_compute. reflexivity.
    + vm_compute. reflexivity.
    + vm_compute. reflexivity.
  - refine (proj2 (proj2 (converged_cycle_published FUEL ceiling_cycle initial
                            (fst ceiling_run) (snd ceiling_run) _ _) _)).
    + vm_compute. reflexivity.
    + vm_compute. reflexivity.
    + vm_compute. reflexivity.
Defined.

End StateFacts.

(** ** The error that is published *)

Section LagFacts.





(** The lag is real: for the cycle of [near_centre_cycle] the published
    error is not the metric at the published position. *)
Lemma published_error_is_stale :
  positioningHandler FUEL near_centre_cycle initial
  = Returned near_centre_state /\
  fxy near_centre_state
  = e_fxy (evaluate (cycle_measurement near_centre_cycle)
             (x initial) (y initial)) /\
  fxy near_centre_state
  <> e_fxy (evaluate (cycle_measurement near_centre_cycle)
              (x near_centre_state) (y near_centre_state)).
Proof.
  split; [vm_compute; reflexivity |].
  split; [vm_compute; reflexivity |].
  vm_compute. intros H. discriminate H.
Qed.

End LagFacts.

(** ** Timestamps and captures *)

Section CaptureFacts.

Lemma wrap_s32_range v : Int.is_int32 (Int.wrap_s32 v).
Proof.
  unfold Int.is_int32, Int.INT32_MIN, Int.INT32_MAX, Int.wrap_s32.
  rewrite modulus_eq, half_modulus_eq.
  pose proof (Z.mod_pos_bound v 4294967296 ltac:(lia)) as H.
  destruct (Z.ltb_spec (v mod 4294967296) 2147483648); lia.
Qed.

Lemma wrap_s32_mod v : Int.wrap_s32 (v mod Int.modulus) = Int.wrap_s32 v.
Proof.
  unfold Int.wrap_s32. rewrite Z.mod_mod by (rewrite modulus_eq; lia).
  reflexivity.
Qed.

(** X8: the tick delta of line 140 is immune to counter wraparound.  For
    any two true times, however many times the 32-bit counter has wrapped
    and wherever it wraps between them, the delta computed from the two
    counter values is the exact [(T0 - Ti) - i * 100000], as long as the
    true difference, the offset and the result fit [int32]; and on every
    input the delta is some [int32] value. *)
Theorem tick_delta_wraparound T0 Ti i :
  Int.is_int32 (T0 - Ti) ->
  Int.is_int32 (i * 100000) ->
  Int.is_int32 ((T0 - Ti) - i * 100000) ->
  tick_delta (Int.wrap_u32 T0) (Int.wrap_u32 Ti) i = (T0 - Ti) - i * 100000 /\
  forall a b j, Int.is_int32 (tick_delta a b j).
Proof.
  intros R1 R2 R3. split.
  - unfold tick_delta, Int.sub_s32, Int.mul_s32, Int.cast_s32, Int.sub_u32,
      Int.wrap_u32.
    rewrite <- Zminus_mod, wrap_s32_mod.
    rewrite ticks_per_spacing_eq.
    rewrite (wrap_s32_small _ R1), (wrap_s32_small _ R2).
    apply (wrap_s32_small _ R3).
  - intros a b j. unfold tick_delta, Int.sub_s32. apply wrap_s32_range.
Qed.

Lemma int32_literal v :
  (-2147483648 <=? v) && (v <=? 2147483647) = true -> Int.is_int32 v.
Proof.
  rewrite andb_true_iff, !Z.leb_le.
  unfold Int.is_int32, Int.INT32_MIN, Int.INT32_MAX.
  rewrite half_modulus_eq. lia.
Defined.

Lemma tick_delta_wraparound_witness :
  tick_delta (Int.wrap_u32 4294900000) (Int.wrap_u32 4295000007) 1
  = (4294900000 - 4295000007) - 1 * 100000 /\
  Int.wrap_u32 4295000007 = 32711.
Proof.
  split; [| reflexivity].
  apply (tick_delta_wraparound 4294900000 4295000007 1);
    apply int32_literal; reflexivity.
Defined.

Lemma acquire_first_garbage cap n : forall i k,
  acquire cap i n = inl k ->
  (i <= k < i + n)%nat /\
  garbage_time (cap k) = true /\
  (forall j, (i <= j < k)%nat -> garbage_time (cap j) = false) /\
  forall cap', (forall j, (i <= j <= k)%nat -> cap' j = cap j) ->
               acquire cap' i n = inl k.
Proof.
  induction n as [| n IH]; intros i k H.
  - discriminate H.
  - cbn [acquire] in H. destruct (garbage_time (cap i)) eqn:G.
    + assert (k = i) by congruence. subst k.
      split; [lia | split; [exact G | split; [intros j Hj; lia |]]].
      intros cap' Hc. cbn [acquire]. rewrite (Hc i) by lia. rewrite G.
      reflexivity.
    + destruct (acquire cap (S i) n) as [k' | time] eqn:E; [| discriminate H].
      assert (k' = k) by congruence. subst k'.
      destruct (IH (S i) k E) as (Hk & Hg & Hbefore & Hext).
      split; [lia | split; [exact Hg | split]].
      * intros j Hj. destruct (Nat.eq_dec j i) as [-> | Hne]; [exact G |].
        apply Hbefore. lia.
      * intros cap' Hc. cbn [acquire]. rewrite (Hc i) by lia. rewrite G.
        rewrite (Hext cap') by (intros j Hj; apply Hc; lia). reflexivity.
Qed.

Lemma acquire_all_fresh cap n : forall i time,
  acquire cap i n = inr time ->
  time = map cap (seq i n) /\
  forall j, (i <= j < i + n)%nat -> garbage_time (cap j) = false.
Proof.
  induction n as [| n IH]; intros i time H.
  - cbn [acquire] in H. split; [cbn; congruence | intros j Hj; lia].
  - cbn [acquire] in H. destruct (garbage_time (cap i)) eqn:G;
      [discriminate H |].
    destruct (acquire cap (S i) n) as [k' | time'] eqn:E; [discriminate H |].
    destruct (IH (S i) time' E) as (Et & Hall).
    split.
    + cbn [seq map]. rewrite <- Et. congruence.
    + intros j Hj. destruct (Nat.eq_dec j i) as [-> | Hne]; [exact G |].
      apply Hall. lia.
Qed.

(** X9: the handler reads at most four captures, in order, and stops at
    the first one that fails line 128.  Its result depends on the first
    four captures only; when the acquisition loop returns at index [k],
    capture [k] is the first bad one and what would have been read after
    it plays no part; and when the loop completes, [time] holds the four
    captures and all of them passed. *)
Theorem handler_reads_four_captures fuel cap cap' st :
  (forall i, (i < 4)%nat -> cap' i = cap i) ->
  positioningHandler fuel cap' st = positioningHandler fuel cap st /\
  (forall k, acquire cap 0 4 = inl k ->
     (k < 4)%nat /\ garbage_time (cap k) = true /\
     (forall j, (j < k)%nat -> garbage_time (cap j) = false) /\
     forall cap'', (forall j, (j <= k)%nat -> cap'' j = cap j) ->
                   acquire cap'' 0 4 = inl k) /\
  (forall time, acquire cap 0 4 = inr time ->
     time = [cap 0%nat; cap 1%nat; cap 2%nat; cap 3%nat] /\
     forall j, (j < 4)%nat -> garbage_time (cap j) = false).
Proof.
  intros Hc. split; [| split].
  - unfold positioningHandler. rewrite !acquire_four. unfold valid.
    cbn [existsb].
    rewrite (Hc 0%nat), (Hc 1%nat), (Hc 2%nat), (Hc 3%nat) by lia.
    reflexivity.
  - intros k H. destruct (acquire_first_garbage cap 4 0 k H)
      as (Hk & Hg & Hb & Hext).
    split; [lia | split; [exact Hg | split]].
    + intros j Hj. apply Hb. lia.
    + intros cap'' H''. apply Hext. intros j Hj. apply H''. lia.
  - intros time H. destruct (acquire_all_fresh cap 4 0 time H) as (Et & Hall).
    split; [exact Et |]. intros j Hj. apply Hall. lia.
Qed.

Lemma handler_reads_four_captures_witness :
  positioningHandler FUEL padded_ceiling_cycle initial
  = positioningHandler FUEL ceiling_cycle initial.
Proof.
  refine (proj1 (handler_reads_four_captures FUEL ceiling_cycle
                   padded_ceiling_cycle initial _)).
  intros i Hi. destruct i as [| [| [| [| i]]]]; try reflexivity. lia.
Defined.

End CaptureFacts.

(** ** The transmitter simulator *)

Section SimulatorFacts.

Import Simulator.

Lemma sub_u32_elapsed T B :
  0 <= T - B < Int.modulus ->
  Int.sub_u32 (Int.wrap_u32 T) (Int.wrap_u32 B) = T - B.
Proof.
  intros H. unfold Int.sub_u32, Int.wrap_u32.
  rewrite <- Zminus_mod. apply Z.mod_small. exact H.
Qed.

(** X10: the busy-wait of the sketch measures elapsed time correctly
    across the overflow of [micros()].  When the readings are the 32-bit
    images of true times that lie less than one counter period after the
    true starting time, the wait ends at the first poll at which [limit]
    microseconds have truly elapsed, and runs out of readings exactly when
    no poll is that late. *)
Theorem busy_wait_wraparound times began limit :
  Forall (fun t => 0 <= t - began < Int.modulus) times ->
  busy_wait (map Int.wrap_u32 times) (Int.wrap_u32 began) limit =
  option_map (fun r => (Int.wrap_u32 (fst r), map Int.wrap_u32 (snd r)))
             (first_elapsed times began limit).
Proof.
  induction 1 as [| t rest Ht Hrest IH].
  - reflexivity.
  - cbn [map busy_wait first_elapsed].
    rewrite (sub_u32_elapsed t began Ht).
    destruct (t - began <? limit); [exact IH | reflexivity].
Qed.

Lemma within_period began t :
  (0 <=? t - began) && (t - began <? 4294967296) = true ->
  0 <= t - began < Int.modulus.
Proof.
  rewrite andb_true_iff, Z.leb_le, Z.ltb_lt, modulus_eq. tauto.
Defined.

Lemma busy_wait_wraparound_witness :
  busy_wait (map Int.wrap_u32 overflow_polled) (Int.wrap_u32 overflow_began)
            DURATION =
  option_map (fun r => (Int.wrap_u32 (fst r), map Int.wrap_u32 (snd r)))
             (first_elapsed overflow_polled overflow_began DURATION).
Proof.
  apply (busy_wait_wraparound overflow_polled overflow_began DURATION).
  repeat (constructor; [apply within_period; reflexivity |]).
  constructor.
Defined.

Lemma busy_wait_exit clock : forall began limit now rest,
  busy_wait clock began limit = Some (now, rest) ->
  limit <= Int.sub_u32 now began /\
  exists skipped,
    clock = skipped ++ now :: rest /\
    Forall (fun t => Int.sub_u32 t began < limit) skipped.
Proof.
  induction clock as [| t clock IH]; intros began limit now rest H.
  - discriminate H.
  - cbn [busy_wait] in H.
    destruct (Z.ltb_spec (Int.sub_u32 t began) limit) as [Hlt | Hge].
    + destruct (IH _ _ _ _ H) as (Hl & skipped & E & Hs).
      split; [exact Hl |]. exists (t :: skipped). split.
      * cbn. rewrite E. reflexivity.
      * constructor; assumption.
    + assert (t = now /\ clock = rest) as [-> ->] by (split; congruence).
      split; [exact Hge |]. exists []. split; [reflexivity | constructor].
Qed.

Lemma next_index i :
  0 <= i < NUM_TRANSMITTERS ->
  ((i + 1) mod UINT_MODULUS) mod NUM_TRANSMITTERS
  = (i + 1) mod NUM_TRANSMITTERS.
Proof.
  unfold NUM_TRANSMITTERS, UINT_MODULUS. intros H.
  rewrite (Z.mod_small (i + 1) (2 ^ 16)) by lia. reflexivity.
Qed.

Lemma loop_pulse i clock p :
  0 <= i < NUM_TRANSMITTERS ->
  loop i clock = Some p ->
  next_i p = (i + 1) mod NUM_TRANSMITTERS /\
  0 <= next_i p < NUM_TRANSMITTERS /\
  written p = [digitalWrite RX_PIN HIGH; digitalWrite RX_PIN LOW] /\
  DURATION <= Int.sub_u32 (lowered p) (beginning p) /\
  nth (Z.to_nat i) SPACINGS 0 <= Int.sub_u32 (ended p) (beginning p) /\
  exists polled, clock = beginning p :: polled ++ clock_left p.
Proof.
  intros Hi H. unfold loop in H.
  destruct clock as [| b clock1]; [discriminate H |].
  destruct (busy_wait clock1 b DURATION) as [[t1 clock2] |] eqn:W1;
    [| discriminate H].
  destruct (busy_wait clock2 b (nth (Z.to_nat i) SPACINGS 0))
    as [[t2 clock3] |] eqn:W2; [| discriminate H].
  assert (E : p = {| next_i := ((i + 1) mod UINT_MODULUS) mod NUM_TRANSMITTERS;
                     clock_left := clock3; beginning := b; lowered := t1;
                     ended := t2;
                     written := [digitalWrite RX_PIN HIGH;
                                 digitalWrite RX_PIN LOW] |})
    by congruence.
  subst p. cbn [next_i clock_left beginning lowered ended written].
  destruct (busy_wait_exit _ _ _ _ _ W1) as (H1 & s1 & E1 & _).
  destruct (busy_wait_exit _ _ _ _ _ W2) as (H2 & s2 & E2 & _).
  rewrite (next_index i Hi).
  split; [reflexivity |].
  split; [apply Z.mod_pos_bound; unfold NUM_TRANSMITTERS; lia |].
  split; [reflexivity | split; [exact H1 | split; [exact H2 |]]].
  exists (s1 ++ t1 :: s2 ++ [t2]).
  rewrite E1, E2. rewrite <- !app_assoc. cbn. rewrite <- app_assoc.
  reflexivity.
Qed.

(** X11: the pings rotate through the table of spacings.  After [n] calls
    of [loop] that start with index [i] (in range), the index is
    [(i + n) mod 4], so four calls bring it back; each call raises and
    then lowers the pin once, keeps it high for at least [DURATION]
    microseconds of the counter, and the [k]-th call does not return
    before [SPACINGS[(i + k) mod 4]] microseconds have passed since its
    ping began. *)
Theorem loops_rotation n : forall i clock i' clock' ps,
  0 <= i < NUM_TRANSMITTERS ->
  loops n i clock = Some (i', clock', ps) ->
  i' = (i + Z.of_nat n) mod NUM_TRANSMITTERS /\
  length ps = n /\
  (forall k p, nth_error ps k = Some p ->
     written p = [digitalWrite RX_PIN HIGH; digitalWrite RX_PIN LOW] /\
     DURATION <= Int.sub_u32 (lowered p) (beginning p) /\
     nth (Z.to_nat ((i + Z.of_nat k) mod NUM_TRANSMITTERS)) SPACINGS 0
     <= Int.sub_u32 (ended p) (beginning p)) /\
  (n = 4%nat -> i' = i).
Proof.
  induction n as [| n IH]; intros i clock i' clock' ps Hi H.
  - cbn [loops] in H.
    assert (i' = i /\ ps = []) as [-> ->] by (split; congruence).
    split; [rewrite Z.add_0_r, Z.mod_small by exact Hi; reflexivity |].
    split; [reflexivity | split; [| discriminate]].
    intros k p Hk. destruct k; discriminate Hk.
  - cbn [loops] in H.
    destruct (loop i clock) as [p0 |] eqn:L; [| discriminate H].
    destruct (loops n (next_i p0) (clock_left p0)) as [[[i1 c1] ps1] |] eqn:R;
      [| discriminate H].
    assert (i' = i1 /\ ps = p0 :: ps1) as [-> ->] by (split; congruence).
    destruct (loop_pulse i clock p0 Hi L) as (En & Hn & Hw & Hd & Hsp & _).
    destruct (IH _ _ _ _ _ Hn R) as (Ei & Hlen & Hall & _).
    assert (Eidx : i1 = (i + Z.of_nat (S n)) mod NUM_TRANSMITTERS).
    { rewrite Ei, En, Zplus_mod_idemp_l. f_equal. lia. }
    split; [exact Eidx |].
    split; [cbn [length]; rewrite Hlen; reflexivity |].
    split.
    + intros k p Hk. destruct k as [| k].
      * cbn [nth_error] in Hk. assert (p = p0) by congruence. subst p.
        rewrite Z.add_0_r, Z.mod_small by exact Hi.
        split; [exact Hw | split; [exact Hd | exact Hsp]].
      * cbn [nth_error] in Hk. pose proof (Hall k p Hk) as Hk'.
        rewrite En, Zplus_mod_idemp_l in Hk'.
        replace (i + Z.of_nat (S k)) with (i + 1 + Z.of_nat k) by lia.
        exact Hk'.
    + intros Hn4. rewrite Eidx, Hn4. unfold NUM_TRANSMITTERS in *.
      change (Z.of_nat 4) with (1 * 4).
      rewrite Z.mod_add by lia. apply Z.mod_small. exact Hi.
Qed.

Lemma index_literal i :
  (0 <=? i) && (i <? 4) = true -> 0 <= i < NUM_TRANSMITTERS.
Proof.
  rewrite andb_true_iff, Z.leb_le, Z.ltb_lt. unfold NUM_TRANSMITTERS. tauto.
Defined.

Lemma rotation_solved :
  loops 4 0 rotation_clock
  = Some (fst (fst rotation_result), snd (fst rotation_result),
          snd rotation_result).
Proof. vm_compute. reflexivity. Defined.

Lemma loops_rotation_witness :
  fst (fst rotation_result) = (0 + Z.of_nat 4) mod NUM_TRANSMITTERS /\
  length (snd rotation_result) = 4%nat.
Proof.
  destruct (loops_rotation 4 0 rotation_clock _ _ _
              (index_literal 0 (eq_refl true)) rotation_solved)
    as (Hi & Hl & _).
  split; [exact Hi | exact Hl].
Defined.

Lemma first_elapsed_exit times : forall began limit T rest,
  first_elapsed times began limit = Some (T, rest) ->
  limit <= T - began /\ exists skipped, times = skipped ++ T :: rest.
Proof.
  induction times as [| t times IH]; intros began limit T rest H.
  - discriminate H.
  - cbn [first_elapsed] in H.
    destruct (Z.ltb_spec (t - began) limit) as [Hlt | Hge].
    + destruct (IH _ _ _ _ H) as (Hl & skipped & E).
      split; [exact Hl |]. exists (t :: skipped). rewrite E. reflexivity.
    + assert (t = T /\ times = rest) as [-> ->] by (split; congruence).
      split; [exact Hge |]. exists []. reflexivity.
Qed.

Lemma sorted_suffix skipped : forall T rest,
  StronglySorted Z.le (skipped ++ T :: rest) ->
  Forall (Z.le T) rest /\ StronglySorted Z.le (T :: rest).
Proof.
  induction skipped as [| s skipped IH]; intros T rest H.
  - cbn in H. split; [| exact H]. inversion H; assumption.
  - cbn in H. inversion H as [| a l Hs Hf]; subst. apply IH. exact Hs.
Qed.

(** X12: in true time, with a clock that never runs backwards and is
    polled within one counter period of the start of the ping, one call of
    [loop] keeps the pin high for at least [DURATION] microseconds and
    returns no earlier than [SPACINGS[i]] microseconds after the ping
    began, so the next ping (whose start is a later reading) begins at
    least that long after this one, also when [micros()] overflows in
    between. *)
Theorem pulse_spacing_in_true_time i began polled p :
  0 <= i < NUM_TRANSMITTERS ->
  StronglySorted Z.le (began :: polled) ->
  Forall (fun t => t - began < Int.modulus) polled ->
  loop i (map Int.wrap_u32 (began :: polled)) = Some p ->
  exists t_low t_end later,
    beginning p = Int.wrap_u32 began /\
    lowered p = Int.wrap_u32 t_low /\
    ended p = Int.wrap_u32 t_end /\
    clock_left p = map Int.wrap_u32 later /\
    began + DURATION <= t_low /\
    began + nth (Z.to_nat i) SPACINGS 0 <= t_end /\
    Forall (fun t => began + nth (Z.to_nat i) SPACINGS 0 <= t) later.
Proof.
  intros Hi Hsorted Hwin H.
  assert (Hall : Forall (fun t => 0 <= t - began < Int.modulus) polled).
  { inversion Hsorted as [| a l _ Hge]; subst.
    rewrite Forall_forall in *. intros t Ht.
    specialize (Hge t Ht). specialize (Hwin t Ht). lia. }
  assert (Hsp : StronglySorted Z.le polled)
    by (inversion Hsorted; assumption).
  cbn [map] in H. unfold loop in H.
  rewrite (busy_wait_wraparound polled began DURATION Hall) in H.
  destruct (first_elapsed polled began DURATION) as [[T1 r1] |] eqn:F1;
    [| discriminate H].
  cbn [option_map fst snd] in H.
  destruct (first_elapsed_exit _ _ _ _ _ F1) as (H1 & s1 & E1).
  assert (Hall1 : Forall (fun t => 0 <= t - began < Int.modulus) r1).
  { rewrite E1 in Hall. apply Forall_app in Hall. destruct Hall as [_ Hc].
    inversion Hc; assumption. }
  rewrite E1 in Hsp. destruct (sorted_suffix s1 T1 r1 Hsp) as [_ Hs1].
  assert (Hsr1 : StronglySorted Z.le r1) by (inversion Hs1; assumption).
  rewrite (busy_wait_wraparound r1 began _ Hall1) in H.
  destruct (first_elapsed r1 began (nth (Z.to_nat i) SPACINGS 0))
    as [[T2 r2] |] eqn:F2; [| discriminate H].
  cbn [option_map fst snd] in H.
  destruct (first_elapsed_exit _ _ _ _ _ F2) as (H2 & s2 & E2).
  rewrite E2 in Hsr1. destruct (sorted_suffix s2 T2 r2 Hsr1) as [Hge2 _].
  assert (E : p = {| next_i := ((i + 1) mod UINT_MODULUS) mod NUM_TRANSMITTERS;
                     clock_left := map Int.wrap_u32 r2;
                     beginning := Int.wrap_u32 began;
                     lowered := Int.wrap_u32 T1;
                     ended := Int.wrap_u32 T2;
                     written := [digitalWrite RX_PIN HIGH;
                                 digitalWrite RX_PIN LOW] |})
    by congruence.
  subst p. cbn [beginning lowered ended clock_left].
  exists T1, T2, r2.
  repeat (split; [reflexivity |]).
  split; [lia | split; [lia |]].
  rewrite Forall_forall in *. intros t Ht. specialize (Hge2 t Ht). lia.
Qed.

Lemma overflow_sorted : StronglySorted Z.le (overflow_began :: overflow_polled).
Proof.
  repeat (constructor;
          [| repeat (constructor; [apply Z.leb_le; reflexivity |]);
             constructor]).
  constructor.
Defined.

Lemma overflow_window :
  Forall (fun t => t - overflow_began < Int.modulus) overflow_polled.
Proof.
  repeat (constructor; [apply Z.ltb_lt; reflexivity |]). constructor.
Defined.

Lemma overflow_pass_run :
  loop 0 (map Int.wrap_u32 (overflow_began :: overflow_polled))
  = Some overflow_pass.
Proof. vm_compute. reflexivity. Defined.

Lemma pulse_spacing_in_true_time_witness :
  exists t_low t_end later,
    beginning overflow_pass = Int.wrap_u32 overflow_began /\
    lowered overflow_pass = Int.wrap_u32 t_low /\
    ended overflow_pass = Int.wrap_u32 t_end /\
    clock_left overflow_pass = map Int.wrap_u32 later /\
    overflow_began + DURATION <= t_low /\
    overflow_began + nth (Z.to_nat 0) SPACINGS 0 <= t_end /\
    Forall (fun t => overflow_began + nth (Z.to_nat 0) SPACINGS 0 <= t) later.
Proof.
  exact (pulse_spacing_in_true_time 0 overflow_began overflow_polled
           overflow_pass (index_literal 0 (eq_refl true))
           overflow_sorted overflow_window overflow_pass_run).
Defined.

End SimulatorFacts.
